(** * RadiXplore pipeline: annotation alignment and geolocation disambiguation

    A shallow embedding of [pipeline/ner_model.py] and
    [pipeline/geolocator.py], followed by the properties of the alignment
    and disambiguation engine.

    Conventions of the embedding.
    - Python [str] values are [string]s; the text is taken to be ASCII, so
      [str.lower], [str.split], [\b] and [[A-Z]] are the ASCII ones.
    - Python [int] offsets are [Z]; list indices produced by [enumerate]
      are [nat].
    - A key read with [dict.get(key)] is an [option]: [None] for an absent
      key and for [null] alike. A key read with a default is a [field],
      which tells the absent key, for which the default stands in, from
      the key that holds [null], for which it does not.
    - A Python exception is the [Raise] constructor of [result].
    - The scores of the disambiguation are sums of the literals [0.8] and
      [0.5]; they are kept as exact rationals [Q], on which every
      comparison of the source ([> max_score], [> 0.5]) has the outcome it
      has on the binary doubles of the four reachable values
      [0], [0.5], [0.8], [1.3]. *)

From Stdlib Require Import ZArith QArith Qround Qminmax Lqa Ascii String.
From stdpp Require Import gmap strings list.

(** ** Python runtime fragments *)

Module Py.

(** The exceptions that the modelled code can raise. The three geocoder
    exceptions carry the text that [str(e)] would print. *)
Inductive exn : Type :=
| TypeError
| IndexError
| NameError
| FileNotFoundError
| AttributeError
| ValueError
| GeocoderTimedOut (msg : string)
| GeocoderUnavailable (msg : string)
| OtherException (msg : string).

Inductive result (A : Type) : Type :=
| Ok (a : A)
| Raise (e : exn).
Arguments Ok {A} a.
Arguments Raise {A} e.

#[export] Instance result_ret : MRet result := fun _ a => Ok a.
#[export] Instance result_bind : MBind result := fun _ _ f m =>
  match m with
  | Ok a => f a
  | Raise e => Raise e
  end.

Definition raises {A} (m : result A) : Prop :=
  match m with Ok _ => False | Raise _ => True end.

(** [len(s)] as a Python int. *)
Definition len (s : string) : Z := Z.of_nat (String.length s).

(** [str.isspace] on one ASCII character: TAB..CR, FS..US and space. *)
Definition is_space (c : ascii) : bool :=
  let n := nat_of_ascii c in
  ((9 <=? n)%nat && (n <=? 13)%nat) || ((28 <=? n)%nat && (n <=? 32)%nat).

Definition is_upper (c : ascii) : bool :=
  let n := nat_of_ascii c in (65 <=? n)%nat && (n <=? 90)%nat.

Definition is_lower (c : ascii) : bool :=
  let n := nat_of_ascii c in (97 <=? n)%nat && (n <=? 122)%nat.

Definition is_digit (c : ascii) : bool :=
  let n := nat_of_ascii c in (48 <=? n)%nat && (n <=? 57)%nat.

(** The class [\w] of the [re] module, on ASCII. *)
Definition is_word (c : ascii) : bool :=
  is_upper c || is_lower c || is_digit c || Ascii.eqb c "_"%char.

Definition lower_char (c : ascii) : ascii :=
  if is_upper c then ascii_of_nat (nat_of_ascii c + 32) else c.

(** [s.lower()] *)
Fixpoint lower (s : string) : string :=
  match s with
  | EmptyString => EmptyString
  | String c s' => String (lower_char c) (lower s')
  end.

(** [s[n:]] for [0 <= n] *)
Fixpoint str_drop (n : nat) (s : string) : string :=
  match n, s with
  | O, _ => s
  | S n', EmptyString => EmptyString
  | S n', String _ s' => str_drop n' s'
  end.

(** [s[:n]] for [0 <= n] *)
Fixpoint str_take (n : nat) (s : string) : string :=
  match n, s with
  | O, _ => EmptyString
  | S n', EmptyString => EmptyString
  | S n', String c s' => String c (str_take n' s')
  end.

(** [sub in s] *)
Fixpoint contains (sub s : string) : bool :=
  String.prefix sub s ||
  match s with
  | EmptyString => false
  | String _ s' => contains sub s'
  end.

(** The scan of [str.find]: [s] is the suffix of the text that starts
    at offset [pos]; the answer is the offset of the first occurrence of
    [sub], or [-1]. *)
Fixpoint find_from (sub s : string) (pos : Z) : Z :=
  if String.prefix sub s then pos
  else match s with
       | EmptyString => (-1)%Z
       | String _ s' => find_from sub s' (pos + 1)%Z
       end.

(** [text.find(sub, start)] for [0 <= start]. *)
Definition find (text sub : string) (start : Z) : Z :=
  if (start <=? len text)%Z
  then find_from sub (str_drop (Z.to_nat start) text) start
  else (-1)%Z.

(** [text.split()]: maximal runs of non-whitespace characters. [cur] is
    the run being read. *)
Fixpoint split_ws (s cur : string) : list string :=
  match s with
  | EmptyString => if String.eqb cur "" then [] else [cur]
  | String c s' =>
      if is_space c
      then (if String.eqb cur "" then split_ws s' ""
            else cur :: split_ws s' "")
      else split_ws s' (cur +:+ String c "")
  end.

Definition split (text : string) : list string := split_ws text "".

(** [l[i] = x]: Python raises [IndexError] outside the list. *)
Definition set_item {A} (l : list A) (i : nat) (x : A) : result (list A) :=
  if (i <? length l)%nat then Ok (<[i:=x]> l) else Raise IndexError.

(** [l[i]] *)
Definition get_item {A} (l : list A) (i : nat) : result A :=
  match l !! i with
  | Some x => Ok x
  | None => Raise IndexError
  end.

(** [min(a, b)] where [a] may be [None]: comparing [None] with an int
    is a [TypeError]. *)
Definition min_opt (a : option Z) (b : Z) : result Z :=
  match a with
  | Some a' => Ok (Z.min a' b)
  | None => Raise TypeError
  end.

End Py.

Import Py.

(** ** [pipeline/ner_model.py] *)

Module NerModel.

(** What a key of a JSON object holds: no such key, the value [null], or
    a value of the kind that is expected there. *)
Inductive field (A : Type) : Type :=
| Absent
| Null
| Present (a : A).
Arguments Absent {A}.
Arguments Null {A}.
Arguments Present {A} a.

(** The [value] object of one Label Studio result. [start] and [end] are
    read with [val.get(key)], which gives [None] for a key that is absent
    and for a key that holds [null] alike. [labels] is read with a
    default, which only an absent key brings in; its elements may be
    [null]. *)
Record AnnValue : Type := mkAnnValue {
  v_start : option Z;
  v_end : option Z;
  v_labels : field (list (option string))
}.

(** One element of [annotations[0].result]: [null], or an object with
    its [value]. *)
Inductive Ann : Type :=
| NullAnn
| mkAnn (a_value : field AnnValue).

(** One element of [record["annotations"]]: [null], or an object with
    its [result]. *)
Inductive Completion : Type :=
| NullCompletion
| mkCompletion (c_result : field (list Ann)).

(** The [data] object of a record; a [text] that is absent or [null] is
    [None]. *)
Record Data : Type := mkData { d_text : option string }.

(** One record of the annotation file: [data] and [annotations]. *)
Record LSRecord : Type := mkLSRecord {
  r_data : field Data;
  r_annotations : field (list Completion)
}.

(** [{"tokens": tokens, "ner_tags": tags}] *)
Record IOBRecord : Type := mkIOB {
  tokens : list string;
  ner_tags : list string
}.

(** The empty dict that [ann.get("value", {})] falls back to. *)
Definition empty_value : AnnValue := mkAnnValue None None Absent.

(** [val = ann.get("value", {})] of line 38, together with the first
    read of line 39: on a result that is [null] the call [ann.get] raises
    [AttributeError]; for a [value] that is [null] the default does not
    apply, [val] is [None], and [val.get("start")] raises
    [AttributeError]. *)
Definition get_value (ann : Ann) : result AnnValue :=
  match ann with
  | NullAnn => Raise AttributeError
  | mkAnn Absent => Ok empty_value
  | mkAnn Null => Raise AttributeError
  | mkAnn (Present val) => Ok val
  end.

(** [val.get("labels", [None])[0]]: the default stands in for an absent
    key only; [None[0]] is a [TypeError], [[][0]] an [IndexError]. *)
Definition first_label (val : AnnValue) : result (option string) :=
  match v_labels val with
  | Absent => Ok None
  | Null => Raise TypeError
  | Present [] => Raise IndexError
  | Present (l :: _) => Ok l
  end.

(** Lines 30-35: the character span of every token, each searched from
    the end of the previous one. *)
Fixpoint token_spans_from (text : string) (toks : list string)
    (current_pos : Z) : list (Z * Z) :=
  match toks with
  | [] => []
  | token :: rest =>
      let start := find text token current_pos in
      if (start =? -1)%Z then token_spans_from text rest current_pos
      else (start, start + len token)%Z
             :: token_spans_from text rest (start + len token)%Z
  end.

Definition token_spans (text : string) : list (Z * Z) :=
  token_spans_from text (split text) 0%Z.

(** Lines 42-46: the loop over [enumerate(token_spans)] for one span
    that passed the guard; [i] is the index of the head of [spans]. *)
Fixpoint tag_tokens (start_char : Z) (end_char : option Z) (label : string)
    (spans : list (Z * Z)) (i : nat) (first : bool) (tags : list string)
    : result (list string) :=
  match spans with
  | [] => Ok tags
  | (token_start, token_end) :: rest =>
      m ← min_opt end_char token_end;
      if (Z.max start_char token_start <? m)%Z
      then
        tags' ← set_item tags i
                  (if first then "B-" +:+ label else "I-" +:+ label);
        tag_tokens start_char end_char label rest (S i) false tags'
      else tag_tokens start_char end_char label rest (S i) first tags
  end.

(** Lines 38-46: one iteration of [for ann in annotations]. *)
Definition process_ann (spans : list (Z * Z)) (tags : list string)
    (ann : Ann) : result (list string) :=
  val ← get_value ann;
  label ← first_label val;
  match label, v_start val with
  | Some l, Some start_char =>
      if String.eqb l "PROJECT"
      then tag_tokens start_char (v_end val) l spans 0 true tags
      else Ok tags
  | _, _ => Ok tags
  end.

Fixpoint process_anns (spans : list (Z * Z)) (tags : list string)
    (anns : list Ann) : result (list string) :=
  match anns with
  | [] => Ok tags
  | ann :: rest =>
      tags' ← process_ann spans tags ann;
      process_anns spans tags' rest
  end.

(** Lines 27-47 for one record with a non-empty text. *)
Definition convert_record (text : string) (annotations : list Ann)
    : result IOBRecord :=
  let toks := split text in
  let tags := replicate (length toks) "O" in
  tags' ← process_anns (token_spans text) tags annotations;
  Ok (mkIOB toks tags').

(** The text that line 23 reads when it reads one, [None] otherwise. *)
Definition r_text (record : LSRecord) : option string :=
  match r_data record with
  | Present data => d_text data
  | Absent | Null => None
  end.

(** [record.get("data", {}).get("text", "")]: a [data] that is [null] is
    [None], and [None.get] raises [AttributeError]. A text that is absent
    is [""] and a text that is [null] is [None]; line 24 passes over
    both. *)
Definition get_text (record : LSRecord) : result string :=
  match r_data record with
  | Null => Raise AttributeError
  | Absent | Present _ => Ok (default "" (r_text record))
  end.

(** [record.get("annotations", [{}])[0].get("result", [])] of line 26 and
    the start of the loop of line 37. The defaults stand in for absent
    keys only: [annotations] that is [null] gives [None[0]], a
    [TypeError]; an empty list gives an [IndexError]; a first element that
    is [null] gives [None.get], an [AttributeError]; a [result] that is
    [null] is [None], over which the [for] of line 37 raises [TypeError]
    (nothing is written between the two lines). *)
Definition get_annotations (record : LSRecord) : result (list Ann) :=
  match r_annotations record with
  | Absent => Ok []
  | Null => Raise TypeError
  | Present [] => Raise IndexError
  | Present (NullCompletion :: _) => Raise AttributeError
  | Present (mkCompletion Absent :: _) => Ok []
  | Present (mkCompletion Null :: _) => Raise TypeError
  | Present (mkCompletion (Present result) :: _) => Ok result
  end.

Fixpoint convert_records (data : list LSRecord) : result (list IOBRecord) :=
  match data with
  | [] => Ok []
  | record :: rest =>
      text ← get_text record;
      if String.eqb text "" then convert_records rest
      else
        annotations ← get_annotations record;
        r ← convert_record text annotations;
        rs ← convert_records rest;
        Ok (r :: rs)
  end.

(** [convert_json_to_iob]: the file system holds the parsed content of
    the annotation file, or nothing at that path. *)
Definition convert_json_to_iob (file : option (list LSRecord))
    : result (list IOBRecord) :=
  match file with
  | None => Raise FileNotFoundError
  | Some data => convert_records data
  end.

End NerModel.

Import NerModel.


(** *** Tag encoding ([fine_tune_ner_model], lines 53-72) *)

Module TagEncoder.

Definition label_list : list string := ["O"; "B-PROJECT"; "I-PROJECT"].

(** [enumerate(l)] *)
Definition enumerate {A} (l : list A) : list (nat * A) :=
  imap (fun i x => (i, x)) l.

(** [{label: i for i, label in enumerate(label_list)}]: a later binding
    of a key replaces an earlier one. *)
Definition label_encoding : gmap string Z :=
  foldl (fun m '(i, label) => <[label := Z.of_nat i]> m) ∅
        (enumerate label_list).

(** [label_encoding.get(tag, 0)] *)
Definition encode_tag (tag : string) : Z :=
  default 0%Z (label_encoding !! tag).

(** Line 56: [[label_encoding.get(tag, 0) for tag in record["ner_tags"]]] *)
Definition encode_tags (tags : list string) : list Z :=
  encode_tag <$> tags.

(** The value given to the pieces that the loss must skip. *)
Definition ignore_index : Z := (-100)%Z.

(** Lines 66-69: the labels of the sub-word pieces of one example.
    [word_ids] is what the tokenizer reports for the example: for every
    piece the index of the word it comes from, or [None] for a special
    piece. *)
Fixpoint align_labels (label : list Z) (word_ids : list (option nat))
    (previous_word_idx : option nat) : result (list Z) :=
  match word_ids with
  | [] => Ok []
  | word_idx :: rest =>
      x ← match word_idx with
          | None => Ok ignore_index
          | Some w =>
              if decide (word_idx = previous_word_idx) then Ok ignore_index
              else get_item label w
          end;
      xs ← align_labels label rest word_idx;
      Ok (x :: xs)
  end.

Definition tokenize_and_align (label : list Z) (word_ids : list (option nat))
    : result (list Z) :=
  align_labels label word_ids None.

(** Modelled from the spec: the source only encodes; the direction from
    ids back to tags ("back through the fixed enumeration") is the same
    enumeration of [label_list] read from id to tag. *)
Definition label_decoding : gmap Z string :=
  foldl (fun m '(i, label) => <[Z.of_nat i := label]> m) ∅
        (enumerate label_list).

Definition decode_id (id : Z) : option string := label_decoding !! id.

Definition decode_ids (ids : list Z) : list (option string) :=
  decode_id <$> ids.

End TagEncoder.

Import TagEncoder.

(** ** [pipeline/geolocator.py] *)

(** *** The fragment of [re] used by the location pattern *)

Module Regex.

Inductive regex : Type :=
| RClass (p : ascii -> bool)      (* a character class *)
| RChar (c : ascii)               (* a literal character *)
| RWordBoundary                   (* \b *)
| RSeq (r1 r2 : regex)
| RStar (r : regex)               (* greedy r* *)
| RPlus (r : regex).              (* greedy r+ *)

(** A position in the subject: the character before it, if any, and the
    text from it on. *)
Record cursor : Type := mkCursor { prev : option ascii; rest : string }.

Definition next (c : cursor) : option ascii :=
  match rest c with
  | EmptyString => None
  | String a _ => Some a
  end.

Definition word_opt (a : option ascii) : bool :=
  match a with
  | Some a => is_word a
  | None => false
  end.

(** [\b]: exactly one side of the position is a word character. *)
Definition at_word_boundary (c : cursor) : bool :=
  xorb (word_opt (prev c)) (word_opt (next c)).

Definition eat (p : ascii -> bool) (c : cursor) : option cursor :=
  match rest c with
  | EmptyString => None
  | String a s => if p a then Some (mkCursor (Some a) s) else None
  end.

(** A greedy repetition of the matcher [m], at most [n] times: first one
    more iteration, which has to consume input, and only when nothing
    follows from it the continuation [k]. *)
Fixpoint iterate (m : cursor -> (cursor -> option cursor) -> option cursor)
    (k : cursor -> option cursor) (n : nat) (c : cursor) : option cursor :=
  match n with
  | O => k c
  | S n' =>
      match m c (fun c' =>
              if (String.length (rest c') <? String.length (rest c))%nat
              then iterate m k n' c' else None) with
      | Some e => Some e
      | None => k c
      end
  end.

(** Backtracking matcher in continuation-passing style: [rmatch r c k]
    is the end of the first match of [r] at [c], in the order in which
    a backtracking engine tries them, that the continuation [k] accepts.
    As every iteration of a repetition consumes input, the number of
    iterations is bounded by the length of the text that is left. *)
Fixpoint rmatch (r : regex) (c : cursor) (k : cursor -> option cursor)
    : option cursor :=
  match r with
  | RClass p =>
      match eat p c with Some c' => k c' | None => None end
  | RChar a =>
      match eat (Ascii.eqb a) c with Some c' => k c' | None => None end
  | RWordBoundary => if at_word_boundary c then k c else None
  | RSeq r1 r2 => rmatch r1 c (fun c' => rmatch r2 c' k)
  | RStar r' => iterate (rmatch r') k (S (String.length (rest c))) c
  | RPlus r' =>
      rmatch r' c (fun c1 =>
        iterate (rmatch r') k (S (String.length (rest c1))) c1)
  end.

(** The match of [r] that starts at [c], as the number of characters it
    spans. *)
Definition match_at (r : regex) (c : cursor) : option nat :=
  match rmatch r c Some with
  | Some e => Some (String.length (rest c) - String.length (rest e))%nat
  | None => None
  end.

(** [re.findall] for a pattern whose only group spans the whole match:
    scan from left to right, and after a match go on from its end.
    [skip] counts the characters of the last match still to pass. *)
Fixpoint findall_from (r : regex) (before : option ascii) (s : string)
    (skip : nat) : list string :=
  match s with
  | EmptyString =>
      match skip, match_at r (mkCursor before s) with
      | O, Some _ => [""]
      | _, _ => []
      end
  | String a s' =>
      match skip with
      | S skip' => findall_from r (Some a) s' skip'
      | O =>
          match match_at r (mkCursor before s) with
          | Some n => str_take n s :: findall_from r (Some a) s' (n - 1)
          | None => findall_from r (Some a) s' 0
          end
      end
  end.

Definition findall (r : regex) (s : string) : list string :=
  findall_from r None s 0.

End Regex.

Import Regex.

Module Geolocator.

(** [[A-Za-z'-]] *)
Definition name_char (c : ascii) : bool :=
  is_upper c || is_lower c || Ascii.eqb c "'"%char || Ascii.eqb c "-"%char.

(** One capitalized word: [[A-Z]] and then [[A-Za-z'-]+]. *)
Definition capitalized_word : regex :=
  RSeq (RClass is_upper) (RPlus (RClass name_char)).

(** The pattern of line 29: a word boundary, the group made of one
    capitalized word and of any number of further ones, each after one
    space (a non-capturing group under a star), and a word boundary. *)
Definition location_pattern : regex :=
  RSeq RWordBoundary
    (RSeq (RSeq capitalized_word
                (RStar (RSeq (RChar " ") capitalized_word)))
          RWordBoundary).

Definition stop_words : gset string :=
  list_to_set ["The"; "A"; "An"; "This"; "Project"; "Company"].

(** Lines 29-33: the list [locations] before it is turned into a set. *)
Definition extract_locations (context : string) : list string :=
  let potential_locations := findall location_pattern context in
  let locations :=
    filter (fun loc => (loc ∉ stop_words) ∧ (2 < String.length loc)%nat)
           potential_locations in
  if contains "WA" context
     && negb (bool_decide ("Western Australia" ∈ locations))
  then locations ++ ["Western Australia"]
  else locations.

(** A candidate as built by [geocode_location]. The coordinates are only
    carried along. *)
Record Candidate : Type := mkCandidate {
  name : string;
  latitude : Q;
  longitude : Q
}.

(** A [geopy] location. *)
Record Location : Type := mkLocation {
  address : string;
  loc_latitude : Q;
  loc_longitude : Q
}.

(** The three justification texts of [simulate_llm_disambiguation]; the
    second one prints the confidence. *)
Inductive Justification : Type :=
| NoCandidatesProvided
| HighContextualMatch (confidence : Q)
| AmbiguousDefault.

Record DisambiguationResult : Type := mkResult {
  chosen_location : option string;
  coordinates : option (Q * Q);
  geolocation_confidence : Q;
  justification : Justification
}.

Definition Qgt_bool (x y : Q) : bool := negb (Qle_bool x y).

(** Round half to even, to an integer. *)
Definition round_half_even (x : Q) : Z :=
  let f := Qfloor x in
  let r := (x - inject_Z f)%Q in
  if Qgt_bool (1 # 2) r then f
  else if Qgt_bool r (1 # 2) then (f + 1)%Z
  else if Z.even f then f else (f + 1)%Z.

(** [round(x, ndigits)] on an exact decimal. *)
Definition py_round (x : Q) (ndigits : nat) : Q :=
  let p := Pos.pow 10 (Pos.of_nat ndigits) in
  match ndigits with
  | O => inject_Z (round_half_even x)
  | S _ => Qmake (round_half_even (x * inject_Z (Zpos p))) p
  end.

(** Lines 44-48: the score of one candidate. *)
Definition score_candidate (context : string) (cand : Candidate) : Q :=
  let score := 0%Q in
  let cand_name_lower := lower (name cand) in
  let score :=
    if contains "western australia" (lower context)
       && contains "western australia" cand_name_lower
    then (score + 0.8)%Q
    else if contains "wa" context
            && contains "western australia" cand_name_lower
    then (score + 0.8)%Q
    else score in
  let score :=
    if contains "australia" (lower context)
       && contains "australia" cand_name_lower
    then (score + 0.5)%Q
    else score in
  score.

(** Line 49: one iteration of the loop, on the pair
    [(best_candidate, max_score)]. *)
Definition scan_step (context : string) (st : option Candidate * Q)
    (cand : Candidate) : option Candidate * Q :=
  let score := score_candidate context cand in
  if Qgt_bool score (snd st) then (Some cand, score) else st.

(** Lines 42-49. *)
Definition scan (context : string) (candidates : list Candidate)
    : option Candidate * Q :=
  foldl (scan_step context) (None, (-1)%Q) candidates.

Definition fallback (first_cand : Candidate) : DisambiguationResult :=
  mkResult (Some (name first_cand))
           (Some (latitude first_cand, longitude first_cand))
           0.25%Q AmbiguousDefault.

Definition simulate_llm_disambiguation (context : string)
    (candidates : list Candidate) : DisambiguationResult :=
  match candidates with
  | [] => mkResult None None 0.0%Q NoCandidatesProvided
  | first_cand :: _ =>
      let '(best_candidate, max_score) := scan context candidates in
      match best_candidate with
      | Some best =>
          if Qgt_bool max_score 0.5%Q
          then
            let confidence := Qmin (py_round max_score 4) 1.0%Q in
            mkResult (Some (name best))
                     (Some (latitude best, longitude best))
                     confidence (HighContextualMatch confidence)
          else fallback first_cand
      | None => fallback first_cand
      end
  end.


(** A record of the NER output file, one per line. *)
Record EntityMention : Type := mkMention {
  pdf_file : string;
  page_number : Z;
  project_name : string;
  ner_confidence : Q;
  context_sentence : string;
  mention_coordinates : option (Q * Q)
}.

(** The record after [record.update(final_choice)]. *)
Record FinalRecord : Type := mkFinal {
  fr_pdf_file : string;
  fr_page_number : Z;
  fr_project_name : string;
  fr_ner_confidence : Q;
  fr_context_sentence : string;
  fr_coordinates : option (Q * Q);
  fr_chosen_location : option string;
  fr_geolocation_confidence : Q;
  fr_justification : Justification
}.

(** [record.update(final_choice)]: the key [coordinates] is replaced,
    the three other keys are added. *)
Definition update (record : EntityMention) (final_choice : DisambiguationResult)
    : FinalRecord :=
  mkFinal (pdf_file record) (page_number record) (project_name record)
          (ner_confidence record) (context_sentence record)
          (coordinates final_choice) (chosen_location final_choice)
          (geolocation_confidence final_choice) (justification final_choice).

(** The names that [run_geolocation_pipeline] can read at line 88: its
    own local variables and the globals of the module. None of the
    builtins has a one-letter name. *)
Definition local_names : list string :=
  ["input_file"; "output_file"; "geolocator"; "f_in"; "records"; "i";
   "record"; "context"; "location_names"; "all_candidates"; "name";
   "final_choice"; "f_out"].

Definition module_globals : list string :=
  ["json"; "os"; "re"; "time"; "Nominatim"; "GeocoderTimedOut";
   "GeocoderUnavailable"; "geocode_location";
   "simulate_llm_location_extraction"; "simulate_llm_disambiguation";
   "run_geolocation_pipeline"].

(** The two file objects of the function. *)
Inductive handle : Type := InputHandle | OutputHandle.

Definition file_objects : gmap string handle :=
  <["f_out" := OutputHandle]> (<["f_in" := InputHandle]> ∅).

(** Reading a name: [NameError] when it is bound nowhere; otherwise the
    file object it is bound to, if it is one. *)
Definition load_name (x : string) : result (option handle) :=
  if bool_decide (x ∈ local_names ++ module_globals)
  then Ok (file_objects !! x)
  else Raise NameError.

(** [x.write(data)] at line 88, where the output file is open for
    appending and holds [out], and the input file is closed. *)
Definition file_write (x data out : string) : result unit * string :=
  match load_name x with
  | Raise e => (Raise e, out)
  | Ok (Some OutputHandle) => (Ok (), out +:+ data)
  | Ok (Some InputHandle) => (Raise ValueError, out)
  | Ok None => (Raise AttributeError, out)
  end.

Definition newline : string := String (ascii_of_nat 10) "".

Section Pipeline.

(** The order in which [list(set(...))] lists the elements of a set;
    Python does not fix it. *)
Variable list_of_set : gset string -> list string.

(** [geolocator.geocode(query, exactly_one=False, limit=n)]: [None], a
    list of locations, or an exception. *)
Variable geocode : string -> nat -> result (option (list Location)).

(** [json.dumps]: the text that [json.dump] writes for a record. *)
Variable json_dumps : FinalRecord -> string.

(** Lines 27-34. *)
Definition simulate_llm_location_extraction (context : string)
    : list string :=
  list_of_set (list_to_set (extract_locations context)).

(** Lines 13-25. The [print] calls and the [time.sleep(1)] are not
    part of the model. *)
Definition geocode_location (location_name : string)
    : result (list Candidate) :=
  let body :=
    locations ← geocode location_name 3;
    match locations with
    | None | Some [] => Ok []
    | Some locs =>
        Ok ((fun loc => mkCandidate (address loc) (loc_latitude loc)
                                   (loc_longitude loc)) <$> locs)
    end in
  match body with
  | Ok r => Ok r
  | Raise (GeocoderTimedOut _) | Raise (GeocoderUnavailable _) => Ok []
  | Raise _ => Ok []
  end.

(** Lines 78-80. *)
Fixpoint all_candidates_of (location_names : list string)
    : result (list Candidate) :=
  match location_names with
  | [] => Ok []
  | name :: rest =>
      cs ← geocode_location name;
      more ← all_candidates_of rest;
      Ok (cs ++ more)
  end.

(** Lines 87-88. [fs] is the content of the output file, if there is
    one. Opening for appending creates the file; leaving the [with]
    block closes it, also when the body raises. *)
Definition append_record (record : FinalRecord) (fs : option string)
    : result unit * option string :=
  let out := default "" fs in
  match file_write "f_out" (json_dumps record) out with
  | (Raise e, out) => (Raise e, Some out)
  | (Ok _, out) =>
      let '(r, out) := file_write "f" newline out in
      (r, Some out)
  end.

(** Lines 71-88. *)
Fixpoint process_records (records : list EntityMention)
    (fs : option string) : result unit * option string :=
  match records with
  | [] => (Ok (), fs)
  | record :: rest =>
      let context := context_sentence record in
      match simulate_llm_location_extraction context with
      | [] => process_records rest fs
      | location_names =>
          match all_candidates_of location_names with
          | Raise e => (Raise e, fs)
          | Ok [] => process_records rest fs
          | Ok all_candidates =>
              let final_choice :=
                simulate_llm_disambiguation context all_candidates in
              match append_record (update record final_choice) fs with
              | (Raise e, fs') => (Raise e, fs')
              | (Ok _, fs') => process_records rest fs'
              end
          end
      end
  end.

(** Lines 58-90. [input] is the parsed content of the input file, if
    it exists; [fs] the content of the output file, if it exists. *)
Definition run_geolocation_pipeline (input : option (list EntityMention))
    (fs : option string) : result unit * option string :=
  match input with
  | None => (Ok (), fs)
  | Some records => process_records records None
  end.

End Pipeline.

End Geolocator.

Import Geolocator.

(** ** The data model of the specification *)

Module DataModel.

(** A span of an [AnnotationRecord]: [{start, end, label}]. *)
Record Span : Type := mkSpan {
  sp_start : Z;
  sp_end : Z;
  sp_label : string
}.

(** The Label Studio result that carries a span. *)
Definition ann_of_span (s : Span) : Ann :=
  mkAnn (Present (mkAnnValue (Some (sp_start s)) (Some (sp_end s))
                             (Present [Some (sp_label s)]))).

(** Character-interval overlap of a span with a token span:
    [max(ann.start, tok.start) < min(ann.end, tok.end)]. *)
Definition overlaps (s : Span) (tok : Z * Z) : Prop :=
  (Z.max (sp_start s) (fst tok) < Z.min (sp_end s) (snd tok))%Z.

(** A span affects a token when it is labelled [PROJECT] and overlaps
    it. *)
Definition affects (s : Span) (tok : Z * Z) : Prop :=
  sp_label s = "PROJECT" ∧ overlaps s tok.

(** The result is an object with a [value] whose first label is
    [PROJECT]. *)
Definition project_labelled (ann : Ann) : Prop :=
  ∃ val more,
    ann = mkAnn (Present val)
    ∧ v_labels val = Present (Some "PROJECT" :: more).

(** The result is an object with a [value] that carries an integer
    [start] and an integer [end]: neither is absent or [null]. *)
Definition has_offsets (ann : Ann) : Prop :=
  ∃ val,
    ann = mkAnn (Present val)
    ∧ is_Some (v_start val) ∧ is_Some (v_end val).

(** The result has a first label to read: it is an object, its [value]
    is absent or an object, and the [labels] of the value are absent or
    a list that is not empty. *)
Definition has_first_label (ann : Ann) : Prop :=
  match ann with
  | NullAnn | mkAnn Null => False
  | mkAnn Absent => True
  | mkAnn (Present val) =>
      match v_labels val with
      | Absent | Present (_ :: _) => True
      | Null | Present [] => False
      end
  end.

(** Every character of [s] satisfies [p]. *)
Fixpoint all_chars (p : ascii -> bool) (s : string) : bool :=
  match s with
  | EmptyString => true
  | String c s' => p c && all_chars p s'
  end.

(** The spans of the maximal runs of non-whitespace characters of [s],
    read by position: [s] starts at offset [pos] of the text and [cur] is
    the offset at which the run being read started. *)
Fixpoint run_spans (s : string) (pos : Z) (cur : option Z) : list (Z * Z) :=
  match s with
  | EmptyString =>
      match cur with Some st => [(st, pos)] | None => [] end
  | String c s' =>
      if is_space c
      then match cur with
           | Some st => (st, pos) :: run_spans s' (pos + 1)%Z None
           | None => run_spans s' (pos + 1)%Z None
           end
      else run_spans s' (pos + 1)%Z (Some (default pos cur))
  end.

(** The overlap test of line 44, as computed. *)
Definition ovb (st e : Z) (tok : Z * Z) : bool :=
  (Z.max st (fst tok) <? Z.min e (snd tok))%Z.

(** The tag that the inner loop writes at the [j]-th token of [toks]
    when the flag is [first] on entry. *)
Definition written (st e : Z) (label : string) (first : bool)
    (toks : list (Z * Z)) (j : nat)
    : string :=
  if first && negb (existsb (ovb st e) (take j toks))
  then "B-" +:+ label else "I-" +:+ label.

#[export] Instance overlaps_dec s tok : Decision (overlaps s tok).
Proof. unfold overlaps. apply _. Defined.

#[export] Instance affects_dec s tok : Decision (affects s tok).
Proof. unfold affects. apply _. Defined.

(** The tag that a [PROJECT] span [s] writes at the [i]-th token. *)
Definition tag_of (s : Span) (toks : list (Z * Z)) (i : nat) : string :=
  if existsb (ovb (sp_start s) (sp_end s)) (take i toks)
  then "I-PROJECT" else "B-PROJECT".

(** The state of the loop of lines 43-49 after the candidates [seen]:
    the best candidate is the first of [seen] with the highest score. *)
Definition best_so_far (context : string) (seen : list Candidate) (i : nat) (best : Candidate)
    : Prop :=
  seen !! i = Some best
  ∧ (∀ c, c ∈ seen → (score_candidate context c <= score_candidate context best)%Q)
  ∧ (∀ j c, j < i → seen !! j = Some c → (score_candidate context c < score_candidate context best)%Q).

End DataModel.

Import DataModel.

(** ** Concrete inputs used by the examples *)

Definition acme_text : string := "Acme Gold Project near Kalgoorlie".

Definition acme_span : Span := mkSpan 0 14 "PROJECT".

Definition acme_file : option (list LSRecord) :=
  Some [mkLSRecord (Present (mkData (Some acme_text)))
          (Present [mkCompletion (Present [ann_of_span acme_span])])].

Definition unlabelled_ann : Ann :=
  mkAnn (Present (mkAnnValue (Some 0%Z) (Some 4%Z) (Present []))).

(** A result whose [labels] is [null], and one whose [value] is [null]. *)
Definition null_labels_ann : Ann :=
  mkAnn (Present (mkAnnValue (Some 0%Z) (Some 4%Z) Null)).

Definition null_value_ann : Ann := mkAnn Null.

Definition open_ended_ann : Ann :=
  mkAnn (Present (mkAnnValue (Some 0%Z) None (Present [Some "PROJECT"]))).

Definition perth_locations : list Location :=
  [mkLocation "Perth, Western Australia, Australia" (-31.95)%Q 115.86%Q;
   mkLocation "Perth, Scotland, United Kingdom" 56.39%Q (-3.43)%Q;
   mkLocation "Perth, Tasmania, Australia" (-41.57)%Q 147.17%Q;
   mkLocation "Perth, Ontario, Canada" 44.9%Q (-76.25)%Q].

(** A backend that knows one place, finds nothing for another and times
    out on everything else. *)
Definition demo_geocode (query : string) (limit : nat)
    : result (option (list Location)) :=
  if String.eqb query "Perth" then Ok (Some (take limit perth_locations))
  else if String.eqb query "Atlantis" then Ok None
  else Raise (GeocoderTimedOut "Service timed out").

Definition wa_context : string := "The project lies in WA near Perth".

Definition perth_candidates : list Candidate :=
  [mkCandidate "Perth, Australia" (-31.95)%Q 115.86%Q;
   mkCandidate "Perth, UK" 56.39%Q (-3.43)%Q].

Definition wa_candidates : list Candidate :=
  [mkCandidate "Perth, Scotland, UK" 56.39%Q (-3.43)%Q;
   mkCandidate "Perth, Western Australia, Australia" (-31.95)%Q 115.86%Q].

Definition perth_mention : EntityMention :=
  mkMention "report.pdf" 3 "Acme Gold Project" 0.9876%Q
            "The Acme Gold Project is a short drive from Perth." None.

Definition perth_final : FinalRecord :=
  mkFinal "report.pdf" 3 "Acme Gold Project" 0.9876%Q
          "The Acme Gold Project is a short drive from Perth."
          (Some ((-31.95)%Q, 115.86%Q))
          (Some "Perth, Western Australia, Australia") 0.25%Q AmbiguousDefault.

(** ** Definitions for the further properties *)

(** The spans of a list are in order and apart: the first starts at [lo]
    or later, every span is non-empty, and every further span starts
    after the end of the one before it. *)
Fixpoint chain (lo : Z) (spans : list (Z * Z)) : Prop :=
  match spans with
  | [] => True
  | (st, e) :: more => (lo <= st < e)%Z ∧ chain (e + 1)%Z more
  end.

(** [text[st:e]] for [0 <= st <= e]. *)
Definition slice (text : string) (st e : Z) : string :=
  str_take (Z.to_nat (e - st)) (str_drop (Z.to_nat st) text).

(** What one span of the data model does to the tags, token by token. *)
Definition apply_span (s : Span) (toks : list (Z * Z)) (tags : list string)
    : list string :=
  imap (fun j t =>
          match toks !! j with
          | Some tok => if decide (affects s tok) then tag_of s toks j else t
          | None => t
          end) tags.

(** A [PROJECT] result with a start and without an end. *)
Definition open_ended (st : Z) (more : list (option string)) : Ann :=
  mkAnn (Present (mkAnnValue (Some st) None
                             (Present (Some "PROJECT" :: more)))).

(** The text of a record is read as non-empty. *)
Definition has_text (record : LSRecord) : bool :=
  negb (String.eqb (default "" (r_text record)) "").

(** The word ids that a sub-word tokenizer reports for a sentence whose
    words, numbered from [w0], are cut into [S k] pieces each, [k] taken
    from [counts]. *)
Fixpoint word_groups (w0 : nat) (counts : list nat) : list (option nat) :=
  match counts with
  | [] => []
  | k :: more => replicate (S k) (Some w0) ++ word_groups (S w0) more
  end.

(** The same between the two special pieces that open and close the
    sentence. *)
Definition grouped_word_ids (counts : list nat) : list (option nat) :=
  None :: word_groups 0 counts ++ [None].

(** The word ids of the pieces that are the first of their word, for the
    value [previous] of [previous_word_idx] on entry. *)
Fixpoint leading_ids (word_ids : list (option nat)) (previous : option nat)
    : list nat :=
  match word_ids with
  | [] => []
  | None :: more => leading_ids more None
  | Some w :: more =>
      if decide (Some w = previous) then leading_ids more (Some w)
      else w :: leading_ids more (Some w)
  end.

(** The words that a pattern can span, positions set aside: a word
    boundary spans nothing. *)
Inductive lang : regex -> string -> Prop :=
| lang_class p a : p a = true -> lang (RClass p) (String a "")
| lang_char a : lang (RChar a) (String a "")
| lang_boundary : lang RWordBoundary ""
| lang_seq r1 r2 w1 w2 :
    lang r1 w1 -> lang r2 w2 -> lang (RSeq r1 r2) (w1 +:+ w2)
| lang_star_nil r : lang (RStar r) ""
| lang_star_cons r w1 w2 :
    lang r w1 -> lang (RStar r) w2 -> lang (RStar r) (w1 +:+ w2)
| lang_plus r w1 w2 :
    lang r w1 -> lang (RStar r) w2 -> lang (RPlus r) (w1 +:+ w2).

(** A letter, an apostrophe, a hyphen or a space. *)
Definition name_or_space (c : ascii) : bool :=
  name_char c || Ascii.eqb c " "%char.

(** The shape of a match of the location pattern: a capital letter and
    then at least one letter, apostrophe, hyphen or space. *)
Definition capitalized (w : string) : Prop :=
  ∃ a t, w = String a t ∧ is_upper a = true ∧ t ≠ ""
         ∧ all_chars name_or_space t = true.

(** What the matcher finds is a word of the pattern that starts at the
    cursor. *)
Definition sound (m : cursor → (cursor → option cursor) → option cursor)
    (r : regex) : Prop :=
  ∀ c k e, m c k = Some e →
           ∃ w c', lang r w ∧ rest c = w +:+ rest c' ∧ k c' = Some e.

(** ** [pipeline/text_extractor.py] *)

Module TextExtractor.

(** [d[k] = v] on a dict kept as the list of its items in insertion
    order: the value of an existing key is replaced in place, a new key
    goes to the end. *)
Fixpoint dict_set (k : nat) (v : string) (d : list (nat * string))
    : list (nat * string) :=
  match d with
  | [] => [(k, v)]
  | (k', v') :: more =>
      if decide (k' = k) then (k, v) :: more else (k', v') :: dict_set k v more
  end.

(** [any(page_texts.values())]: some text is not empty. *)
Definition any_text (page_texts : list (nat * string)) : bool :=
  existsb (fun kv => negb (String.eqb (snd kv) "")) page_texts.

Section Extractor.

(** [os.path.exists] *)
Variable path_exists : string -> bool.

(** [fitz.open(pdf_path)]: an exception, or the pages of the document,
    each with what [page.get_text("text")] gives: a text or an
    exception. *)
Variable fitz_open : string -> result (list (result string)).

(** [pdfplumber.open(pdf_path)]: an exception, or [pdf.pages], each with
    what [page.extract_text()] gives: [None], a text or an exception. *)
Variable plumber_open : string -> result (list (result (option string))).

(** Lines 24-25: [i] is the index of the head of [pages]. *)
Fixpoint fitz_loop (pages : list (result string)) (i : nat)
    (page_texts : list (nat * string)) : result (list (nat * string)) :=
  match pages with
  | [] => Ok page_texts
  | page :: more =>
      text ← page;
      fitz_loop more (S i) (dict_set (i + 1) text page_texts)
  end.

(** Lines 35-37, inside the [try] of line 33: an exception ends the loop
    and leaves what was collected. *)
Fixpoint plumber_loop (pages : list (result (option string))) (i : nat)
    (page_texts : list (nat * string)) : list (nat * string) :=
  match pages with
  | [] => page_texts
  | Raise _ :: _ => page_texts
  | Ok extracted :: more =>
      match extracted with
      | Some text =>
          if String.eqb text "" then plumber_loop more (S i) page_texts
          else plumber_loop more (S i) (dict_set (i + 1) text page_texts)
      | None => plumber_loop more (S i) page_texts
      end
  end.

(** Lines 20-29: the first method gives a result only when it ran to its
    end and found some text. *)
Definition primary (pdf_path : string) : option (list (nat * string)) :=
  match fitz_open pdf_path ≫= fun pages => fitz_loop pages 0 [] with
  | Ok page_texts => if any_text page_texts then Some page_texts else None
  | Raise _ => None
  end.

(** Lines 32-41. *)
Definition secondary (pdf_path : string) : list (nat * string) :=
  match plumber_open pdf_path with
  | Ok pages => plumber_loop pages 0 []
  | Raise _ => []
  end.

Definition extract_text_from_pdf (pdf_path : string)
    : result (list (nat * string)) :=
  if negb (path_exists pdf_path) then Raise FileNotFoundError
  else match primary pdf_path with
       | Some page_texts => Ok page_texts
       | None => Ok (secondary pdf_path)
       end.

End Extractor.

End TextExtractor.

Import TextExtractor.

(** ** [generate_ner_output] of [pipeline/ner_model.py] *)

Module NerOutput.

(** [s.lstrip()] and [s.rstrip()], for the characters that satisfy [p]. *)
Fixpoint lstrip (p : ascii -> bool) (s : string) : string :=
  match s with
  | EmptyString => EmptyString
  | String c s' => if p c then lstrip p s' else s
  end.

Fixpoint rstrip (p : ascii -> bool) (s : string) : string :=
  match s with
  | EmptyString => EmptyString
  | String c s' =>
      match rstrip p s' with
      | EmptyString => if p c then EmptyString else String c EmptyString
      | r => String c r
      end
  end.

(** [s.strip()] *)
Definition strip (s : string) : string := rstrip is_space (lstrip is_space s).

(** The characters of [rstrip('.,')] *)
Definition dot_or_comma (c : ascii) : bool :=
  Ascii.eqb c "."%char || Ascii.eqb c ","%char.

(** [text.replace('\n', ' ')] *)
Fixpoint replace_newlines (s : string) : string :=
  match s with
  | EmptyString => EmptyString
  | String c s' =>
      String (if Ascii.eqb c (ascii_of_nat 10) then " "%char else c)
             (replace_newlines s')
  end.

(** [[.!?]] *)
Definition sentence_end (c : ascii) : bool :=
  Ascii.eqb c "."%char || Ascii.eqb c "!"%char || Ascii.eqb c "?"%char.

Definition ends_sentence (before : option ascii) : bool :=
  match before with
  | Some c => sentence_end c
  | None => false
  end.

(** [re.split] with the pattern of line 94, a run of whitespace that
    follows one of [.!?]: [before] is the character before the position,
    [cur] the piece being read, and [in_gap] tells that a separator is
    being passed, which goes on over all the whitespace. *)
Fixpoint split_sentences_from (s : string) (before : option ascii)
    (cur : string) (in_gap : bool) : list string :=
  match s with
  | EmptyString => [cur]
  | String c s' =>
      if is_space c && (in_gap || ends_sentence before)
      then if in_gap then split_sentences_from s' (Some c) cur true
           else cur :: split_sentences_from s' (Some c) "" true
      else split_sentences_from s' (Some c) (cur +:+ String c "") false
  end.

Definition split_sentences (s : string) : list string :=
  split_sentences_from s None "" false.

(** [os.path.basename]: what follows the last slash. *)
Fixpoint basename_from (s cur : string) : string :=
  match s with
  | EmptyString => cur
  | String c s' =>
      if Ascii.eqb c "/"%char then basename_from s' ""
      else basename_from s' (cur +:+ String c "")
  end.

Definition basename (path : string) : string := basename_from path "".

(** An entity of the aggregated output of the NER pipeline. *)
Record Entity : Type := mkEntity {
  entity_group : string;
  word : string;
  score : Q
}.

Section Output.

(** [extract_text_from_pdf] *)
Variable extract : string -> result (list (nat * string)).

(** [ner_pipeline(sentence)]: the entities, or an exception. *)
Variable ner_pipeline : string -> result (list Entity).

(** [json.dumps] on the records of this stage. *)
Variable json_dumps : EntityMention -> string.

(** Lines 99-101 *)
Definition entity_record (pdf_path : string) (page_num : nat)
    (sentence : string) (entity : Entity) : EntityMention :=
  let project_name := rstrip dot_or_comma (strip (word entity)) in
  let ner_confidence := py_round (score entity) 4 in
  mkMention (basename pdf_path) (Z.of_nat page_num) project_name
            ner_confidence (strip sentence) None.

(** Lines 102-103: the file is opened for appending, which creates it. *)
Definition append_line (record : EntityMention) (fs : option string)
    : option string :=
  Some ((default "" fs +:+ json_dumps record) +:+ newline).

(** Lines 97-103 *)
Definition write_entities (pdf_path : string) (page_num : nat)
    (sentence : string) (entities : list Entity) (fs : option string)
    : option string :=
  foldl (fun fs entity =>
           if String.eqb (entity_group entity) "PROJECT"
           then append_line (entity_record pdf_path page_num sentence entity) fs
           else fs) fs entities.

(** Lines 96-104: an exception of the inference is dropped. *)
Definition process_sentence (pdf_path : string) (page_num : nat)
    (fs : option string) (sentence : string) : option string :=
  match ner_pipeline sentence with
  | Ok entities => write_entities pdf_path page_num sentence entities fs
  | Raise _ => fs
  end.

(** Lines 92-104 *)
Definition process_page (pdf_path : string) (fs : option string)
    (page : nat * string) : option string :=
  let '(page_num, text) := page in
  if String.eqb (strip text) "" then fs
  else
    let sentences := split_sentences (replace_newlines text) in
    foldl (process_sentence pdf_path page_num) fs
          (filter (fun s => 10 < String.length s) sentences).

(** Lines 89-104 *)
Fixpoint process_pdfs (pdf_files : list string) (fs : option string)
    : result unit * option string :=
  match pdf_files with
  | [] => (Ok (), fs)
  | pdf_path :: more =>
      match extract pdf_path with
      | Raise e => (Raise e, fs)
      | Ok page_texts =>
          process_pdfs more (foldl (process_page pdf_path) fs page_texts)
      end
  end.

(** Lines 87-105: the output file of an earlier run is removed first. *)
Definition generate_ner_output (pdf_files : list string)
    (fs : option string) : result unit * option string :=
  process_pdfs pdf_files None.

End Output.

End NerOutput.

Import NerOutput.

(** The keys of a dict, in insertion order, go up from [lo]. *)
Fixpoint increasing_from (lo : nat) (keys : list nat) : Prop :=
  match keys with
  | [] => True
  | k :: more => lo ≤ k ∧ increasing_from (S k) more
  end.

Definition first_char (s : string) : option ascii :=
  match s with
  | EmptyString => None
  | String c _ => Some c
  end.

Fixpoint last_char (s : string) : option ascii :=
  match s with
  | EmptyString => None
  | String c EmptyString => Some c
  | String _ s' => last_char s'
  end.

(** There is a character and it satisfies [p]. *)
Definition holds (p : ascii -> bool) (c : option ascii) : bool :=
  match c with
  | Some c => p c
  | None => false
  end.

(** A record of the NER output as [generate_ner_output] leaves it: no
    coordinates yet, a project name that neither ends with a dot or a
    comma nor begins with whitespace, and a context sentence without
    whitespace at either end. *)
Definition clean_record (r : EntityMention) : Prop :=
  mention_coordinates r = None
  ∧ holds dot_or_comma (last_char (project_name r)) = false
  ∧ holds is_space (first_char (project_name r)) = false
  ∧ holds is_space (first_char (context_sentence r)) = false
  ∧ holds is_space (last_char (context_sentence r)) = false.

(** The content of a file to which the lines of [records] were appended,
    one JSON text and one newline each. *)
Definition lines (json_dumps : EntityMention -> string)
    (records : list EntityMention) (fs : option string) : option string :=
  foldl (fun fs r => append_line json_dumps r fs) fs records.

(** The pages of a document that [get_text] reads without failure. *)
Definition readable (texts : list string) : list (result string) :=
  Ok <$> texts.

(** The dict of all the pages, numbered from 1. *)
Definition numbered (texts : list string) : list (nat * string) :=
  imap (fun i t => (S i, t)) texts.

(** The state of both loops before page [i]: the keys go up from 1 and
    are at most [i]. *)
Definition pages_so_far (i : nat) (d : list (nat * string)) : Prop :=
  increasing_from 1 d.*1 ∧ Forall (fun key => key < S i) d.*1.

(** The state of the sentence splitter: inside a separator no piece has
    been begun; outside, the piece being read ends with the character
    before the position. *)
Definition reading (before : option ascii) (cur : string) (in_gap : bool)
    : Prop :=
  if in_gap then cur = "" else last_char cur = before.

(** All the pieces but the last one. *)
Fixpoint but_last (pieces : list string) : list string :=
  match pieces with
  | [] => []
  | piece :: more =>
      match more with
      | [] => []
      | _ :: _ => piece :: but_last more
      end
  end.

(** The piece ends with one of [.!?]. *)
Definition ends_with_stop (piece : string) : Prop :=
  holds sentence_end (last_char piece) = true.

(** The piece does not begin with whitespace. *)
Definition begins_tight (piece : string) : Prop :=
  holds is_space (first_char piece) = false.

Definition not_newline (c : ascii) : bool :=
  negb (Ascii.eqb c (ascii_of_nat 10)).

(** The text of a file made of one line per record: its JSON text and a
    newline. *)
Fixpoint text_of_lines (json_dumps : EntityMention -> string)
    (records : list EntityMention) : string :=
  match records with
  | [] => ""
  | r :: more => (json_dumps r +:+ newline) +:+ text_of_lines json_dumps more
  end.

(** * Properties *)

(** ** Tokenizer and aligner *)

Example ex_split : split "Acme Gold Project near Kalgoorlie"
  = ["Acme"; "Gold"; "Project"; "near"; "Kalgoorlie"].
Proof. reflexivity. Qed.

Example ex_split_runs :
  split (" a  b" +:+ String (ascii_of_nat 9) "c ") = ["a"; "b"; "c"].
Proof. reflexivity. Qed.

Example ex_find :
  find "abcabc" "bc" 2 = 4%Z ∧ find "abc" "c" 3 = (-1)%Z
  ∧ find "abc" "c" 4 = (-1)%Z.
Proof. repeat split. Qed.

Section Substring.

Lemma append_cons a s t : String a s +:+ t = String a (s +:+ t).
Proof. reflexivity. Qed.

Lemma append_nil_l t : "" +:+ t = t.
Proof. reflexivity. Qed.

Lemma prefix_spec sub s :
  String.prefix sub s = true ↔ ∃ post, s = sub +:+ post.
Proof.
  revert sub. induction s as [|b s IH]; intros [|a sub]; simpl.
  - split; [intros _; by exists ""|done].
  - split; [done|intros [post H]; discriminate].
  - split; [intros _; by exists (String b s)|done].
  - destruct (ascii_dec a b) as [->|Hne].
    + rewrite IH. split; intros [post H]; exists post;
        rewrite append_cons in *; congruence.
    + split; [done|]. intros [post H]. rewrite append_cons in H.
      congruence.
Qed.

Lemma contains_nil sub : contains sub "" = String.prefix sub "" || false.
Proof. reflexivity. Qed.

Lemma contains_cons sub b s :
  contains sub (String b s) = String.prefix sub (String b s) || contains sub s.
Proof. reflexivity. Qed.

Lemma contains_spec sub s :
  contains sub s = true ↔ ∃ pre post, s = pre +:+ sub +:+ post.
Proof.
  induction s as [|b s IH];
    [rewrite contains_nil|rewrite contains_cons];
    rewrite orb_true_iff, prefix_spec.
  - split.
    + intros [[post H]|H]; [|done]. by exists "", post.
    + intros (pre & post & H). left. exists post.
      destruct pre; [exact H|discriminate].
  - rewrite IH. split.
    + intros [[post H]|(pre & post & H)].
      * by exists "", post.
      * exists (String b pre), post. rewrite append_cons. by rewrite H.
    + intros (pre & post & H). destruct pre as [|c pre].
      * left. by exists post.
      * right. exists pre, post. rewrite append_cons in H. congruence.
Qed.

End Substring.

Section Tokenizer.

Lemma str_app_assoc a b c : (a +:+ b) +:+ c = a +:+ b +:+ c.
Proof.
  induction a as [|x a IH]; [reflexivity|].
  by rewrite !append_cons, IH.
Qed.

Lemma str_length_app a b :
  String.length (a +:+ b) = String.length a + String.length b.
Proof.
  induction a as [|x a IH]; [reflexivity|].
  rewrite append_cons. simpl. by rewrite IH.
Qed.

Lemma len_app a b : len (a +:+ b) = (len a + len b)%Z.
Proof. unfold len. rewrite str_length_app. lia. Qed.

Lemma len_nonneg a : (0 <= len a)%Z.
Proof. unfold len. lia. Qed.

Lemma str_drop_app a b : str_drop (String.length a) (a +:+ b) = b.
Proof. induction a as [|x a IH]; [reflexivity|]. by rewrite append_cons. Qed.

Lemma all_chars_snoc p a c :
  all_chars p a = true → p c = true → all_chars p (a +:+ String c "") = true.
Proof.
  induction a as [|x a IH]; simpl.
  - intros _ ->. reflexivity.
  - intros [-> Ha]%andb_true_iff Hc. by apply IH.
Qed.

Lemma prefix_head_ne a t b u :
  a ≠ b → String.prefix (String a t) (String b u) = false.
Proof. intros Hne. simpl. by destruct (ascii_dec a b). Qed.

(** Searching a token from a position that only whitespace separates from
    it finds the token where it stands. *)
Lemma find_from_skips_space ws a t u :
  ∀ pos,
    all_chars is_space ws = true →
    is_space a = false →
    find_from (String a t) (ws +:+ String a t +:+ u) pos = (pos + len ws)%Z.
Proof.
  induction ws as [|w ws IH]; intros pos Hws Ha.
  - rewrite append_nil_l.
    assert (String.prefix (String a t) (String a t +:+ u) = true) as Hp
      by (apply prefix_spec; by exists u).
    rewrite append_cons in *. unfold find_from. rewrite Hp.
    unfold len. simpl. lia.
  - simpl in Hws. apply andb_true_iff in Hws as [Hw Hws].
    rewrite append_cons. cbn [find_from].
    rewrite prefix_head_ne by (intros ->; congruence).
    rewrite IH by done. unfold len. simpl String.length. lia.
Qed.

Lemma find_skips_space pre0 ws a t u :
  all_chars is_space ws = true →
  is_space a = false →
  find (pre0 +:+ ws +:+ String a t +:+ u) (String a t) (len pre0)
  = (len pre0 + len ws)%Z.
Proof.
  intros Hws Ha. unfold find.
  assert ((len pre0 <=? len (pre0 +:+ ws +:+ String a t +:+ u))%Z = true) as ->.
  { apply Z.leb_le. rewrite len_app.
    pose proof (len_nonneg (ws +:+ String a t +:+ u)). lia. }
  unfold len at 1. rewrite Nat2Z.id, str_drop_app.
  by apply find_from_skips_space.
Qed.

(** The loop of lines 30-35 over the tokens of [str.split] computes the
    spans of the runs of non-whitespace characters: no token is skipped.
    The text is [pre0 ws cur s]: the search position is the end of
    [pre0], [ws] is whitespace, [cur] is the part already read of the
    token being split off and [s] is still to be split. *)
Lemma token_spans_from_runs text s :
  ∀ pre0 ws cur,
    text = pre0 +:+ ws +:+ cur +:+ s →
    all_chars is_space ws = true →
    all_chars (fun c => negb (is_space c)) cur = true →
    token_spans_from text (split_ws s cur) (len pre0)
    = run_spans s (len pre0 + len ws + len cur)%Z
                (if String.eqb cur "" then None
                 else Some (len pre0 + len ws)%Z).
Proof.
  induction s as [|c s IH]; intros pre0 ws cur Htext Hws Hcur.
  - cbn [split_ws run_spans]. destruct cur as [|a t]; [reflexivity|].
    cbn [String.eqb token_spans_from].
    simpl in Hcur. apply andb_true_iff in Hcur as [Ha _].
    apply negb_true_iff in Ha.
    assert (Hfind : find text (String a t) (len pre0)
                    = (len pre0 + len ws)%Z)
      by (rewrite Htext; by apply find_skips_space).
    rewrite !Hfind.
    assert ((len pre0 + len ws =? -1)%Z = false) as ->; [|reflexivity].
    apply Z.eqb_neq. pose proof (len_nonneg pre0). pose proof (len_nonneg ws).
    lia.
  - cbn [split_ws run_spans]. destruct (is_space c) eqn:Hc.
    + destruct cur as [|a t].
      * cbn [String.eqb].
        rewrite (IH pre0 (ws +:+ String c "") "").
        -- cbn [String.eqb]. f_equal. rewrite len_app. unfold len. simpl. lia.
        -- rewrite Htext, !append_nil_l, str_app_assoc. reflexivity.
        -- by apply all_chars_snoc.
        -- reflexivity.
      * cbn [String.eqb token_spans_from].
        pose proof Hcur as Hcur'. simpl in Hcur'.
        apply andb_true_iff in Hcur' as [Ha _]. apply negb_true_iff in Ha.
        assert (Hfind : find text (String a t) (len pre0)
                        = (len pre0 + len ws)%Z)
          by (rewrite Htext; by apply find_skips_space).
        rewrite !Hfind.
        assert ((len pre0 + len ws =? -1)%Z = false) as ->.
        { apply Z.eqb_neq. pose proof (len_nonneg pre0).
          pose proof (len_nonneg ws). lia. }
        f_equal.
        assert (len pre0 + len ws + len (String a t)
                = len (pre0 +:+ ws +:+ String a t))%Z as ->
          by (rewrite !len_app; lia).
        rewrite (IH (pre0 +:+ ws +:+ String a t) (String c "") "").
        -- cbn [String.eqb]. f_equal. unfold len. simpl. lia.
        -- rewrite Htext, append_nil_l, !str_app_assoc. reflexivity.
        -- simpl. by rewrite Hc.
        -- reflexivity.
    + rewrite (IH pre0 ws (cur +:+ String c "")).
      * assert (String.eqb (cur +:+ String c "") "" = false) as ->
          by (destruct cur; reflexivity).
        f_equal; [rewrite len_app; unfold len; simpl; lia|].
        destruct cur as [|a t]; cbn [String.eqb default]; f_equal.
        unfold len. simpl. lia.
      * rewrite Htext, str_app_assoc. reflexivity.
      * done.
      * apply all_chars_snoc; [done|]. by rewrite Hc.
Qed.

Lemma run_spans_length s :
  ∀ pos cur st,
    length (run_spans s pos (if String.eqb cur "" then None else Some st))
    = length (split_ws s cur).
Proof.
  induction s as [|c s IH]; intros pos cur st; cbn [run_spans split_ws].
  - by destruct (String.eqb cur "").
  - destruct (is_space c).
    + destruct (String.eqb cur ""); simpl; [|f_equal];
        apply (IH (pos + 1)%Z "" 0%Z).
    + assert (String.eqb (cur +:+ String c "") "" = false) as Hne
        by (destruct cur; reflexivity).
      specialize (IH (pos + 1)%Z (cur +:+ String c "")
                    (default pos (if String.eqb cur "" then None else Some st))).
      rewrite Hne in IH. exact IH.
Qed.

(** The token spans of a text are the spans of its runs of non-whitespace
    characters, one for every token. *)
Lemma token_spans_runs text : token_spans text = run_spans text 0 None.
Proof.
  unfold token_spans, split.
  exact (token_spans_from_runs text text "" "" "" eq_refl eq_refl eq_refl).
Qed.

Lemma token_spans_complete text :
  length (token_spans text) = length (split text).
Proof.
  rewrite token_spans_runs. exact (run_spans_length text 0 "" 0%Z).
Qed.

End Tokenizer.

Section Aligner.

Implicit Types (toks : list (Z * Z)) (tags : list string).

Lemma token_spans_from_length text ws pos :
  length (token_spans_from text ws pos) ≤ length ws.
Proof.
  revert pos. induction ws as [|w ws IH]; intros pos; simpl; [lia|].
  destruct (find text w pos =? -1)%Z; simpl.
  - specialize (IH pos). lia.
  - specialize (IH (find text w pos + len w)%Z). lia.
Qed.

Lemma token_spans_length text :
  length (token_spans text) ≤ length (split text).
Proof. apply token_spans_from_length. Qed.

Lemma tag_tokens_spec st e label toks :
  ∀ k first tags,
    k + length toks ≤ length tags →
    ∃ tags',
      tag_tokens st (Some e) label toks k first tags = Ok tags'
      ∧ length tags' = length tags
      ∧ (∀ j, j < k → tags' !! j = tags !! j)
      ∧ (∀ j, k + length toks ≤ j → tags' !! j = tags !! j)
      ∧ (∀ j tok, toks !! j = Some tok →
           tags' !! (k + j) =
             if ovb st e tok then Some (written st e label first toks j)
             else tags !! (k + j)).
Proof.
  induction toks as [|[ts te] toks IH]; intros k first tags Hlen; simpl in *.
  - exists tags. repeat split; auto. intros j tok Hj. discriminate.
  - change (Z.max st ts <? Z.min e te)%Z with (ovb st e (ts, te)).
    destruct (ovb st e (ts, te)) eqn:Hov.
    + unfold set_item. destruct (k <? length tags) eqn:Hk;
        [|apply Nat.ltb_ge in Hk; lia].
      simpl.
      set (t := if first then "B-" +:+ label else "I-" +:+ label).
      destruct (IH (S k) false (<[k:=t]> tags)) as (tags' & E & L & Hlo & Hhi & Hin).
      { rewrite length_insert. lia. }
      exists tags'. split; [exact E|]. rewrite length_insert in L.
      split; [exact L|]. split; [|split].
      * intros j Hj. rewrite Hlo by lia. apply list_lookup_insert_ne. lia.
      * intros j Hj. rewrite Hhi by lia. apply list_lookup_insert_ne. lia.
      * intros [|j] tok Hj; simpl in Hj.
        -- injection Hj as <-. rewrite Hov. rewrite Nat.add_0_r.
           rewrite Hlo by lia. rewrite list_lookup_insert_eq by lia.
           unfold written. simpl. rewrite andb_true_r. reflexivity.
        -- replace (k + S j) with (S k + j) by lia.
           rewrite (Hin j tok Hj). destruct (ovb st e tok).
           ++ unfold written. simpl. rewrite Hov. simpl.
              rewrite andb_false_r. reflexivity.
           ++ apply list_lookup_insert_ne. lia.
    + destruct (IH (S k) first tags) as (tags' & E & L & Hlo & Hhi & Hin);
        [lia|].
      exists tags'. split; [exact E|]. split; [exact L|]. split; [|split].
      * intros j Hj. apply Hlo. lia.
      * intros j Hj. apply Hhi. lia.
      * intros [|j] tok Hj; simpl in Hj.
        -- injection Hj as <-. rewrite Hov. rewrite Nat.add_0_r.
           apply Hlo. lia.
        -- replace (k + S j) with (S k + j) by lia.
           rewrite (Hin j tok Hj). unfold written. simpl. rewrite Hov.
           reflexivity.
Qed.

Lemma ovb_overlaps s tok :
  ovb (sp_start s) (sp_end s) tok = true ↔ overlaps s tok.
Proof. unfold ovb, overlaps. apply Z.ltb_lt. Qed.

Lemma existsb_earlier s toks i :
  existsb (ovb (sp_start s) (sp_end s)) (take i toks) = true
  ↔ ∃ j tok', j < i ∧ toks !! j = Some tok' ∧ overlaps s tok'.
Proof.
  rewrite existsb_exists. split.
  - intros (tok' & Hin & Hov). apply list_elem_of_In in Hin.
    apply list_elem_of_lookup in Hin as [j Hj].
    apply lookup_take_Some in Hj as [Hj Hlt].
    exists j, tok'. split; [exact Hlt|]. split; [exact Hj|].
    by apply ovb_overlaps.
  - intros (j & tok' & Hlt & Hj & Hov). exists tok'. split.
    + apply list_elem_of_In, list_elem_of_lookup. exists j.
      apply lookup_take_Some. by split.
    + by apply ovb_overlaps.
Qed.

(** One span of the data model, through lines 38-46. *)
Lemma process_ann_span toks tags s :
  length toks ≤ length tags →
  ∃ tags',
    process_ann toks tags (ann_of_span s) = Ok tags'
    ∧ length tags' = length tags
    ∧ (∀ j, length toks ≤ j → tags' !! j = tags !! j)
    ∧ (∀ j tok, toks !! j = Some tok →
         (affects s tok → tags' !! j = Some (tag_of s toks j))
         ∧ (¬ affects s tok → tags' !! j = tags !! j)).
Proof.
  intros Hlen. unfold process_ann, ann_of_span. simpl.
  destruct (String.eqb (sp_label s) "PROJECT") eqn:Hl.
  - apply String.eqb_eq in Hl.
    destruct (tag_tokens_spec (sp_start s) (sp_end s) (sp_label s) toks
                0 true tags) as (tags' & E & L & _ & Hhi & Hin);
      [simpl; lia|].
    exists tags'. split; [exact E|]. split; [exact L|]. split.
    + intros j Hj. apply Hhi. simpl. lia.
    + intros j tok Hj. specialize (Hin j tok Hj). simpl in Hin.
      split.
      * intros [_ Hov]. apply ovb_overlaps in Hov. rewrite Hov in Hin.
        rewrite Hin. unfold written, tag_of. simpl. rewrite Hl.
        by destruct (existsb _ _).
      * intros Hna. destruct (ovb (sp_start s) (sp_end s) tok) eqn:Hov;
          [|exact Hin].
        exfalso. apply Hna. split; [exact Hl|]. by apply ovb_overlaps.
  - exists tags. split; [reflexivity|]. split; [reflexivity|].
    split; [reflexivity|]. intros j tok Hj. split; [|reflexivity].
    intros [Hp _]. apply String.eqb_neq in Hl. contradiction.
Qed.

Lemma process_anns_app toks tags anns1 anns2 :
  process_anns toks tags (anns1 ++ anns2)
  = process_anns toks tags anns1 ≫= fun t => process_anns toks t anns2.
Proof.
  revert tags. induction anns1 as [|a anns1 IH]; intros tags; simpl.
  - reflexivity.
  - destruct (process_ann toks tags a) as [t|e]; simpl; [apply IH|reflexivity].
Qed.

(** All the spans of a record, in their listed order. *)
Lemma process_anns_spec toks tags0 spans :
  length toks ≤ length tags0 →
  ∃ tags,
    process_anns toks tags0 (ann_of_span <$> spans) = Ok tags
    ∧ length tags = length tags0
    ∧ (∀ j, length toks ≤ j → tags !! j = tags0 !! j)
    ∧ (∀ i tok, toks !! i = Some tok →
         ((∀ s, s ∈ spans → ¬ affects s tok) → tags !! i = tags0 !! i)
         ∧ (∀ before s after,
              spans = before ++ s :: after →
              affects s tok →
              (∀ s', s' ∈ after → ¬ affects s' tok) →
              tags !! i = Some (tag_of s toks i))).
Proof.
  intros Hlen. induction spans as [|x spans IH] using rev_ind.
  - exists tags0. repeat split; auto.
    intros before s after E. by destruct before.
  - destruct IH as (tags1 & E1 & L1 & Hhi1 & IH1).
    destruct (process_ann_span toks tags1 x) as (tags2 & E2 & L2 & Hhi2 & IH2);
      [lia|].
    exists tags2. split.
    { rewrite fmap_app, process_anns_app, E1. simpl.
      unfold mbind, result_bind. rewrite E2. reflexivity. }
    split; [lia|]. split.
    { intros j Hj. rewrite Hhi2, Hhi1; auto. }
    intros i tok Hi. destruct (IH1 i tok Hi) as [Hnone Hlast].
    destruct (IH2 i tok Hi) as [Hyes Hno]. split.
    + intros Hall. rewrite Hno.
      * apply Hnone. intros s Hs. apply Hall, elem_of_app. by left.
      * apply Hall, elem_of_app. right. by apply list_elem_of_singleton.
    + intros before s after E Haff Hafter.
      destruct after as [|y after _] using rev_ind.
      * apply app_inj_tail in E as [-> ->]. by apply Hyes.
      * rewrite app_comm_cons, app_assoc in E.
        apply app_inj_tail in E as [-> ->].
        rewrite Hno
          by (apply Hafter, elem_of_app; right; by apply list_elem_of_singleton).
        apply (Hlast before s after eq_refl Haff).
        intros s' Hs'. apply Hafter, elem_of_app. by left.
Qed.

(** Reading the first label of a result succeeds exactly when the
    result has one to read. *)
Lemma first_label_read ann :
  has_first_label ann
  ↔ ∃ val l, get_value ann = Ok val ∧ first_label val = Ok l.
Proof.
  unfold has_first_label, first_label.
  destruct ann as [|[| |val]]; simpl.
  - split; [done|]. by intros (? & ? & ? & _).
  - split; [intros _; by exists empty_value, None|done].
  - split; [done|]. by intros (? & ? & ? & _).
  - destruct (v_labels val) as [| |[|l ls]] eqn:E; split; try done.
    + intros _. exists val, None. by rewrite E.
    + intros (? & ? & [= <-] & H). by rewrite E in H.
    + intros (? & ? & [= <-] & H). by rewrite E in H.
    + intros _. exists val, l. by rewrite E.
Qed.

Lemma tag_tokens_total st e label toks k first tags :
  k + length toks ≤ length tags →
  ∃ tags', tag_tokens st (Some e) label toks k first tags = Ok tags'
           ∧ length tags' = length tags.
Proof.
  intros H. destruct (tag_tokens_spec st e label toks k first tags H)
    as (tags' & E & L & _). eauto.
Qed.

(** One result of the annotation file that has a first label and, when
    this label is [PROJECT], both offsets: the iteration does not
    raise. *)
Lemma process_ann_total toks tags ann :
  length toks ≤ length tags →
  has_first_label ann →
  (project_labelled ann → has_offsets ann) →
  ∃ tags', process_ann toks tags ann = Ok tags'
           ∧ length tags' = length tags.
Proof.
  intros Hlen Hfl Hoff. unfold process_ann.
  unfold has_first_label, project_labelled, has_offsets in *.
  destruct ann as [|[| |val]]; simpl in *; [done|eauto|done|].
  unfold first_label.
  destruct (v_labels val) as [| |[|l ls]] eqn:El; simpl; [eauto|done|done|].
  destruct l as [l|]; [|eauto].
  destruct (v_start val) as [st|] eqn:Es; [|eauto].
  destruct (String.eqb l "PROJECT") eqn:Hl; [|eauto].
  apply String.eqb_eq in Hl. subst l.
  destruct Hoff as (val' & [= <-] & _ & [e He]); [by exists val, ls|].
  rewrite He. apply tag_tokens_total. simpl. lia.
Qed.

(** A result without a first label to read makes its iteration raise. *)
Lemma process_ann_unreadable toks tags ann :
  ¬ has_first_label ann → raises (process_ann toks tags ann).
Proof.
  intros Hno. unfold process_ann.
  destruct (get_value ann) as [val|] eqn:Ev; [|done]. simpl.
  destruct (first_label val) as [l|] eqn:El; [|done].
  destruct Hno. apply first_label_read. eauto.
Qed.

Lemma process_anns_total toks tags anns :
  length toks ≤ length tags →
  (∀ ann, ann ∈ anns → has_first_label ann) →
  (∀ ann, ann ∈ anns → project_labelled ann → has_offsets ann) →
  ∃ tags', process_anns toks tags anns = Ok tags'.
Proof.
  revert tags. induction anns as [|a anns IH]; intros tags Hlen Hfl Hoff;
    simpl; [eauto|].
  destruct (process_ann_total toks tags a) as (t & E & L);
    [done|apply Hfl; set_solver|apply Hoff; set_solver|].
  rewrite E. simpl. apply IH; [lia| |]; intros; [apply Hfl|apply Hoff];
    set_solver.
Qed.

End Aligner.

(** C1, as the specification states it, fails: the span [0,14) reaches
    into the token "Project" at [10,17), which therefore is not left at
    [O]. *)
Lemma acme_tags_not_as_specified :
  split acme_text = ["Acme"; "Gold"; "Project"; "near"; "Kalgoorlie"]
  ∧ token_spans acme_text = [(0, 4); (5, 9); (10, 17); (18, 22); (23, 33)]%Z
  ∧ convert_json_to_iob acme_file
    ≠ Ok [mkIOB ["Acme"; "Gold"; "Project"; "near"; "Kalgoorlie"]
                ["B-PROJECT"; "I-PROJECT"; "O"; "O"; "O"]].
Proof. split; [reflexivity|]. split; [reflexivity|]. discriminate. Qed.

(** C1, amended: aligning the annotation [{start:0, end:14, label:PROJECT}]
    against "Acme Gold Project near Kalgoorlie", whose whitespace tokens
    have the spans (0,4), (5,9), (10,17), (18,22), (23,33), produces the
    tags B-PROJECT, I-PROJECT, I-PROJECT, O, O: the third token overlaps
    the annotation in the characters 10 to 13. *)
Theorem acme_tags :
  split acme_text = ["Acme"; "Gold"; "Project"; "near"; "Kalgoorlie"]
  ∧ token_spans acme_text = [(0, 4); (5, 9); (10, 17); (18, 22); (23, 33)]%Z
  ∧ convert_json_to_iob acme_file
    = Ok [mkIOB ["Acme"; "Gold"; "Project"; "near"; "Kalgoorlie"]
                ["B-PROJECT"; "I-PROJECT"; "I-PROJECT"; "O"; "O"]].
Proof. repeat split. Qed.

(** C6: for every record of the data model, the conversion returns one tag
    per token and every token has its span, and the tag of a token is
    decided by the spans that are labelled [PROJECT] and overlap it,
    [max(ann.start, tok.start) < min(ann.end, tok.end)]: when there is
    none the tag is the initial [O]; otherwise the last such span of the
    list decides, and the tag is [B-PROJECT] when no earlier token overlaps
    that span and [I-PROJECT] when one does. *)
Theorem aligner_last_write_wins (text : string) (spans : list Span) :
  ∃ tags,
    convert_record text (ann_of_span <$> spans) = Ok (mkIOB (split text) tags)
    ∧ length tags = length (split text)
    ∧ length (token_spans text) = length (split text)
    ∧ ∀ i tok, token_spans text !! i = Some tok →
        ((∀ s, s ∈ spans → ¬ affects s tok) → tags !! i = Some "O")
        ∧ (∀ before s after,
             spans = before ++ s :: after →
             affects s tok →
             (∀ s', s' ∈ after → ¬ affects s' tok) →
             ((∀ j tok', j < i → token_spans text !! j = Some tok' →
                         ¬ overlaps s tok')
              → tags !! i = Some "B-PROJECT")
             ∧ ((∃ j tok', j < i ∧ token_spans text !! j = Some tok'
                           ∧ overlaps s tok')
                → tags !! i = Some "I-PROJECT")).
Proof.
  pose proof (token_spans_length text) as Hlen.
  destruct (process_anns_spec (token_spans text)
              (replicate (length (split text)) "O") spans)
    as (tags & E & L & _ & Hspec).
  { by rewrite length_replicate. }
  rewrite length_replicate in L.
  exists tags. split; [unfold convert_record; by rewrite E|].
  split; [exact L|]. split; [apply token_spans_complete|]. intros i tok Hi.
  destruct (Hspec i tok Hi) as [Hnone Hlast]. split.
  - intros Hall. rewrite (Hnone Hall). apply lookup_replicate_2.
    apply lookup_lt_Some in Hi. lia.
  - intros before s after Es Haff Hafter.
    rewrite (Hlast before s after Es Haff Hafter). unfold tag_of.
    destruct (existsb _ _) eqn:Hex; split; intros H; try reflexivity.
    + apply existsb_earlier in Hex as (j & tok' & Hlt & Hj & Hov).
      by destruct (H j tok' Hlt Hj).
    + apply existsb_earlier in H. congruence.
Qed.

Lemma aligner_last_write_wins_witness :
  ∃ tags,
    convert_record acme_text (ann_of_span <$> [acme_span])
    = Ok (mkIOB (split acme_text) tags)
    ∧ tags !! 2 = Some "I-PROJECT" ∧ tags !! 3 = Some "O".
Proof.
  destruct (aligner_last_write_wins acme_text [acme_span])
    as (tags & E & _ & _ & H).
  exists tags. split; [exact E|]. split.
  - destruct (H 2 (10, 17)%Z eq_refl) as [_ Hlast].
    apply (Hlast [] acme_span [] eq_refl).
    + split; [reflexivity|]. unfold overlaps. simpl. lia.
    + intros s' Hs'. by apply elem_of_nil in Hs'.
    + exists 0, (0, 4)%Z. split; [lia|]. split; [reflexivity|].
      unfold overlaps. simpl. lia.
  - destruct (H 3 (18, 22)%Z eq_refl) as [Hnone _]. apply Hnone.
    intros s Hs. apply list_elem_of_singleton in Hs as ->.
    intros [_ Hov]. unfold overlaps in Hov. simpl in Hov. lia.
Defined.

(** C10, as stated, fails: a result whose [labels] list is empty is not
    labelled [PROJECT], so the precondition on the offsets says nothing
    about it (and here it even carries both offsets), yet reading its
    first label raises [IndexError]. The same holds for [labels] that is
    [null] ([TypeError]), for a [value] that is [null] and for a result
    that is [null] ([AttributeError]). *)
Lemma conversion_raises_on_empty_labels :
  (∀ ann, ann ∈ [unlabelled_ann] → project_labelled ann → has_offsets ann)
  ∧ has_offsets unlabelled_ann
  ∧ convert_record "Acme" [unlabelled_ann] = Raise IndexError
  ∧ ¬ project_labelled null_labels_ann
  ∧ convert_record "Acme" [null_labels_ann] = Raise TypeError
  ∧ ¬ project_labelled null_value_ann
  ∧ convert_record "Acme" [null_value_ann] = Raise AttributeError
  ∧ ¬ project_labelled NullAnn
  ∧ convert_record "Acme" [NullAnn] = Raise AttributeError.
Proof.
  split; [|split; [|split; [|split; [|split; [|split; [|split; [|split]]]]]]].
  - intros ann Hin. apply list_elem_of_singleton in Hin as ->.
    intros (val & more & [= <-] & H). discriminate.
  - eexists. split; [reflexivity|]. split; eexists; reflexivity.
  - reflexivity.
  - intros (val & more & [= <-] & H). discriminate.
  - reflexivity.
  - intros (val & more & H & _). discriminate.
  - reflexivity.
  - intros (val & more & H & _). discriminate.
  - reflexivity.
Qed.

(** C10, amended: the conversion of a record does not raise when every
    result has a first label to read (the result is an object, its
    [value] is absent or an object, and the [labels] of the value are
    absent or a list that is not empty) and every result labelled
    [PROJECT] carries an integer start and an integer end; a result that
    lacks a first label to read makes it raise; a result without start
    is skipped, whatever its end; and there is a record whose [PROJECT]
    result has an integer start and no end on which the conversion raises
    [TypeError]. *)
Theorem conversion_total_under_span_invariant :
  (∀ text anns,
     (∀ ann, ann ∈ anns → has_first_label ann) →
     (∀ ann, ann ∈ anns → project_labelled ann → has_offsets ann) →
     ∃ r, convert_record text anns = Ok r)
  ∧ (∀ text ann,
       ¬ has_first_label ann → raises (convert_record text [ann]))
  ∧ (∀ text val,
       has_first_label (mkAnn (Present val)) →
       v_start val = None →
       convert_record text [mkAnn (Present val)]
       = Ok (mkIOB (split text) (replicate (length (split text)) "O")))
  ∧ (project_labelled open_ended_ann
     ∧ (∃ val, open_ended_ann = mkAnn (Present val)
               ∧ is_Some (v_start val) ∧ v_end val = None)
     ∧ convert_record "Acme" [open_ended_ann] = Raise TypeError).
Proof.
  split; [|split; [|split]].
  - intros text anns Hfl Hoff. unfold convert_record.
    destruct (process_anns_total (token_spans text)
                (replicate (length (split text)) "O") anns) as [tags E];
      [rewrite length_replicate; apply token_spans_length|done|done|].
    rewrite E. simpl. eauto.
  - intros text ann Hno. unfold convert_record. cbn [process_anns].
    pose proof (process_ann_unreadable (token_spans text)
                  (replicate (length (split text)) "O") ann Hno) as H.
    by destruct (process_ann _ _ ann).
  - intros text val Hfl Hst. unfold convert_record. simpl.
    unfold process_ann. simpl.
    apply first_label_read in Hfl as (val' & l & [= <-] & ->). simpl.
    rewrite Hst. by destruct l.
  - split; [by eexists _, []|]. split; [|reflexivity].
    eexists. split; [reflexivity|]. split; [by eexists|reflexivity].
Qed.

Lemma conversion_total_under_span_invariant_witness :
  ∃ r, convert_record acme_text [ann_of_span acme_span; mkAnn Absent] = Ok r.
Proof.
  destruct conversion_total_under_span_invariant as [Htotal _].
  apply Htotal.
  - intros ann Hin.
    apply elem_of_cons in Hin as [->|Hin];
      [|apply list_elem_of_singleton in Hin as ->]; exact I.
  - intros ann Hin.
    apply elem_of_cons in Hin as [->|Hin];
      [|apply list_elem_of_singleton in Hin as ->].
    + intros _. eexists. split; [reflexivity|]. split; eexists; reflexivity.
    + intros (val & more & H & _). discriminate.
Defined.

(** ** Tag encoding *)

Section TagEncoding.

Lemma label_encoding_eq :
  label_encoding
  = <["I-PROJECT" := 2%Z]> (<["B-PROJECT" := 1%Z]> (<["O" := 0%Z]> ∅)).
Proof. reflexivity. Qed.

Lemma label_decoding_eq :
  label_decoding
  = <[2%Z := "I-PROJECT"]> (<[1%Z := "B-PROJECT"]> (<[0%Z := "O"]> ∅)).
Proof. reflexivity. Qed.

Lemma encode_tag_range tag :
  encode_tag tag = 0%Z ∨ encode_tag tag = 1%Z ∨ encode_tag tag = 2%Z.
Proof.
  unfold encode_tag. rewrite label_encoding_eq.
  destruct (decide (tag = "I-PROJECT")) as [->|H2];
    [rewrite lookup_insert_eq; auto|rewrite lookup_insert_ne by done].
  destruct (decide (tag = "B-PROJECT")) as [->|H1];
    [rewrite lookup_insert_eq; auto|rewrite lookup_insert_ne by done].
  destruct (decide (tag = "O")) as [->|H0];
    [rewrite lookup_insert_eq; auto|rewrite lookup_insert_ne by done].
  rewrite lookup_empty. auto.
Qed.

Lemma encode_tag_not_ignored tag : encode_tag tag ≠ ignore_index.
Proof.
  unfold ignore_index.
  destruct (encode_tag_range tag) as [->|[->| ->]]; discriminate.
Qed.

Lemma label_list_cases tag :
  tag ∈ label_list → tag = "O" ∨ tag = "B-PROJECT" ∨ tag = "I-PROJECT".
Proof.
  unfold label_list. rewrite !elem_of_cons, elem_of_nil. tauto.
Qed.

Lemma decode_encode tag :
  tag ∈ label_list → decode_id (encode_tag tag) = Some tag.
Proof.
  intros H. destruct (label_list_cases tag H) as [->|[->| ->]];
    reflexivity.
Qed.

Lemma decode_encode_tags tags :
  Forall (fun t => t ∈ label_list) tags →
  decode_ids (encode_tags tags) = Some <$> tags.
Proof.
  induction 1 as [|t tags Ht _ IH]; [reflexivity|].
  unfold decode_ids, encode_tags in *. rewrite !fmap_cons.
  by rewrite IH, decode_encode.
Qed.

(** Lines 66-69 for any value of [previous_word_idx] on entry. *)
Lemma align_labels_spec label word_ids :
  ∀ previous,
    Forall (fun wid => ∀ w, wid = Some w → w < length label) word_ids →
    ∃ out,
      align_labels label word_ids previous = Ok out
      ∧ length out = length word_ids
      ∧ ∀ k wid, word_ids !! k = Some wid →
          let before :=
            match k with O => previous | S k' => word_ids !!! k' end in
          match wid with
          | None => out !! k = Some ignore_index
          | Some w =>
              if decide (before = Some w) then out !! k = Some ignore_index
              else out !! k = label !! w ∧ is_Some (label !! w)
          end.
Proof.
  induction word_ids as [|wid word_ids IH]; intros previous Hin; simpl.
  - exists []. repeat split. intros k wid Hk. discriminate.
  - apply Forall_cons in Hin as [Hw Hin].
    destruct (IH wid Hin) as (out & E & L & Hout).
    assert (∃ x,
      match wid with
      | Some w => if decide (wid = previous) then Ok ignore_index
                  else get_item label w
      | None => Ok ignore_index
      end = Ok x
      ∧ match wid with
        | None => x = ignore_index
        | Some w =>
            if decide (previous = Some w) then x = ignore_index
            else Some x = label !! w
        end) as (x & Ex & Hx).
    { destruct wid as [w|]; [|eauto].
      destruct (decide (Some w = previous)) as [<-|Hne].
      - exists ignore_index. split; [done|]. simpl. by rewrite decide_True.
      - unfold get_item.
        destruct (lookup_lt_is_Some_2 label w (Hw w eq_refl)) as [x Hlx].
        rewrite Hlx. exists x. split; [done|].
        rewrite decide_False by congruence. done. }
    rewrite Ex. simpl. rewrite E. simpl.
    exists (x :: out). split; [done|]. split; [simpl; lia|].
    intros [|k] wid' Hk; simpl in Hk.
    + injection Hk as <-. simpl. destruct wid as [w|]; [|by subst].
      destruct (decide (previous = Some w)); [by subst|].
      split; [done|]. rewrite <- Hx. eauto.
    + specialize (Hout k wid' Hk). simpl.
      destruct k as [|k']; exact Hout.
Qed.

End TagEncoding.

(** C9: the enumeration is O=0, B-PROJECT=1, I-PROJECT=2; decoding the
    encoding of any sequence over the three tags gives the sequence back;
    the ignore value is not the id of any tag and decodes to nothing; and
    in the labels of the sub-word pieces, a piece without word and a piece
    of the same word as the piece before it carry the ignore value, while
    every other piece carries an id that decodes to the tag of its
    word. *)
Theorem tag_encoding_round_trip :
  (encode_tag "O" = 0%Z ∧ encode_tag "B-PROJECT" = 1%Z
   ∧ encode_tag "I-PROJECT" = 2%Z)
  ∧ (∀ tags, Forall (fun t => t ∈ label_list) tags →
             decode_ids (encode_tags tags) = Some <$> tags)
  ∧ (∀ tag, encode_tag tag ≠ ignore_index)
  ∧ decode_id ignore_index = None
  ∧ (∀ tags word_ids,
       Forall (fun t => t ∈ label_list) tags →
       Forall (fun wid => ∀ w, wid = Some w → w < length tags) word_ids →
       ∃ out,
         tokenize_and_align (encode_tags tags) word_ids = Ok out
         ∧ length out = length word_ids
         ∧ ∀ k wid, word_ids !! k = Some wid →
             ((wid = None ∨ (0 < k ∧ word_ids !! (k - 1) = Some wid)) →
              out !! k = Some ignore_index)
             ∧ (∀ w, wid = Some w →
                     (k = 0 ∨ word_ids !! (k - 1) ≠ Some wid) →
                     ∃ id t, out !! k = Some id ∧ id ≠ ignore_index
                             ∧ tags !! w = Some t ∧ decode_id id = Some t)).
Proof.
  split; [repeat split|]. split; [exact decode_encode_tags|].
  split; [exact encode_tag_not_ignored|]. split; [reflexivity|].
  intros tags word_ids Htags Hwids.
  destruct (align_labels_spec (encode_tags tags) word_ids None)
    as (out & E & L & Hout).
  { unfold encode_tags. by rewrite length_fmap. }
  exists out. split; [exact E|]. split; [exact L|].
  intros k wid Hk. specialize (Hout k wid Hk). simpl in Hout.
  assert (Hbefore : ∀ k', k = S k' → word_ids !! k' = Some (word_ids !!! k')).
  { intros k' ->. apply list_lookup_lookup_total_lt.
    apply lookup_lt_Some in Hk. lia. }
  split.
  - intros [->|[Hpos Hsame]]; [exact Hout|].
    destruct wid as [w|]; [|exact Hout].
    destruct k as [|k']; [lia|]. simpl in Hsame. rewrite Nat.sub_0_r in Hsame.
    rewrite (Hbefore k' eq_refl) in Hsame. injection Hsame as Hsame.
    by rewrite decide_True in Hout.
  - intros w -> Hlead. rewrite decide_False in Hout.
    + destruct Hout as [Hout [id Hid]]. rewrite Hid in Hout.
      unfold encode_tags in Hid. rewrite list_lookup_fmap in Hid.
      destruct (tags !! w) as [t|] eqn:Ht; [|discriminate].
      injection Hid as <-. exists (encode_tag t), t.
      split; [exact Hout|]. split; [apply encode_tag_not_ignored|].
      split; [reflexivity|]. apply decode_encode.
      rewrite Forall_lookup in Htags. exact (Htags w t Ht).
    + destruct k as [|k']; [discriminate|]. intros Heq.
      destruct Hlead as [?|Hne]; [lia|]. apply Hne. simpl.
      rewrite Nat.sub_0_r, (Hbefore k' eq_refl). by rewrite Heq.
Qed.

Lemma tag_encoding_round_trip_witness :
  decode_ids (encode_tags ["O"; "B-PROJECT"; "I-PROJECT"; "O"])
  = Some <$> ["O"; "B-PROJECT"; "I-PROJECT"; "O"].
Proof.
  destruct tag_encoding_round_trip as (_ & Hrt & _).
  apply Hrt. repeat constructor; unfold label_list; set_solver.
Defined.

Example ex_align_pieces :
  tokenize_and_align (encode_tags ["O"; "B-PROJECT"; "I-PROJECT"])
    [None; Some 0; Some 1; Some 1; Some 2; None]
  = Ok [-100; 0; 1; -100; 2; -100]%Z.
Proof. reflexivity. Qed.

Example ex_encode_unknown : encode_tag "B-ORG" = 0%Z.
Proof. reflexivity. Qed.

(** ** Candidate location extraction *)

Example ex_findall :
  findall location_pattern
    "The Acme Gold Project near Kalgoorlie in WA, by Rio-Tinto's Perth2 X"
  = ["The Acme Gold Project"; "Kalgoorlie"; "WA"; "Rio-Tinto's"].
Proof. vm_compute. reflexivity. Qed.

Example ex_findall_backtrack :
  findall location_pattern "Rio-9 Tinto" = ["Rio-"; "Tinto"]
  ∧ findall location_pattern "Ab C De" = ["Ab"; "De"]
  ∧ findall location_pattern "New  York City" = ["New"; "York City"]
  ∧ findall location_pattern "_Perth Perth_ Xy-" = ["Xy"]
  ∧ findall location_pattern "X- X' A" = [].
Proof. vm_compute. repeat split. Qed.

Example ex_extract :
  extract_locations
    "The Acme Gold Project near Kalgoorlie in WA, by Rio-Tinto's Perth2 X"
  = ["The Acme Gold Project"; "Kalgoorlie"; "Rio-Tinto's"; "Western Australia"].
Proof. vm_compute. reflexivity. Qed.

Section Extraction.

Variable list_of_set : gset string → list string.

(** [list(set(...))] lists every element of the set once, in some
    order. *)
Hypothesis list_of_set_perm : ∀ X, list_of_set X ≡ₚ elements X.

Lemma elem_of_extraction context loc :
  loc ∈ simulate_llm_location_extraction list_of_set context
  ↔ loc ∈ extract_locations context.
Proof.
  unfold simulate_llm_location_extraction.
  rewrite list_of_set_perm, elem_of_elements, elem_of_list_to_set. done.
Qed.

Lemma extract_locations_kept context loc :
  loc ∈ extract_locations context →
  (loc ∉ stop_words) ∧ (2 < String.length loc).
Proof.
  unfold extract_locations.
  destruct (contains "WA" context && _); [rewrite elem_of_app|];
    rewrite list_elem_of_filter.
  - intros [[H _]|H]; [exact H|].
    apply list_elem_of_singleton in H as ->. split; [|simpl; lia].
    by vm_compute.
  - by intros [H _].
Qed.

Lemma extract_locations_wa context :
  contains "WA" context = true →
  "Western Australia" ∈ extract_locations context.
Proof.
  intros HWA. unfold extract_locations. rewrite HWA. simpl.
  destruct (bool_decide _) eqn:E; simpl.
  - by apply bool_decide_eq_true in E.
  - apply elem_of_app. right. by apply list_elem_of_singleton.
Qed.

(** C8: the returned candidates are free of duplicates, none is one of
    the six stop words, none has two characters or fewer, and when the
    sentence contains "WA" the string "Western Australia" is among
    them. *)
Theorem extraction_postcondition (context : string) :
  let locations := simulate_llm_location_extraction list_of_set context in
  NoDup locations
  ∧ (∀ loc, loc ∈ locations →
            loc ∉ ["The"; "A"; "An"; "This"; "Project"; "Company"])
  ∧ (∀ loc, loc ∈ locations → ¬ String.length loc ≤ 2)
  ∧ ((∃ pre post, context = pre +:+ "WA" +:+ post) →
     "Western Australia" ∈ locations).
Proof.
  simpl. split; [|split; [|split]].
  - unfold simulate_llm_location_extraction.
    rewrite list_of_set_perm. apply NoDup_elements.
  - intros loc Hin. apply elem_of_extraction in Hin.
    apply extract_locations_kept in Hin as [Hstop _].
    intros Hl. apply Hstop. unfold stop_words.
    by apply elem_of_list_to_set.
  - intros loc Hin. apply elem_of_extraction in Hin.
    apply extract_locations_kept in Hin as [_ Hlen]. lia.
  - intros HWA. apply contains_spec in HWA.
    apply elem_of_extraction. by apply extract_locations_wa.
Qed.

End Extraction.

Lemma extraction_postcondition_witness :
  "Western Australia"
  ∈ simulate_llm_location_extraction elements "Drilling in WA near Perth".
Proof.
  destruct (extraction_postcondition elements (fun X => reflexivity _)
              "Drilling in WA near Perth") as (_ & _ & _ & HWA).
  apply HWA. by exists "Drilling in ", " near Perth".
Defined.

(** ** Geocoding client *)

Section Geocode.

Variable geocode : string → nat → result (option (list Location)).

(** The backend honours [limit]. *)
Hypothesis geocode_limit :
  ∀ query n locs, geocode query n = Ok (Some locs) → length locs ≤ n.

(** C7: for every query the client returns a list, never an exception;
    the list has at most 3 candidates; and it is empty whenever the
    backend raises, be it a timeout, unavailability or anything else. *)
Theorem geocode_location_contract (location_name : string) :
  ∃ cands,
    geocode_location geocode location_name = Ok cands
    ∧ length cands ≤ 3
    ∧ (∀ e, geocode location_name 3 = Raise e → cands = []).
Proof.
  unfold geocode_location.
  destruct (geocode location_name 3) as [[[|loc locs]|]|e] eqn:E; simpl.
  - exists []. split; [done|]. split; [simpl; lia|done].
  - eexists. split; [reflexivity|]. split; [|done].
    apply geocode_limit in E. simpl in *. by rewrite length_fmap.
  - exists []. split; [done|]. split; [simpl; lia|done].
  - exists []. split; [by destruct e|]. split; [simpl; lia|done].
Qed.

End Geocode.

Lemma demo_geocode_limit query n locs :
  demo_geocode query n = Ok (Some locs) → length locs ≤ n.
Proof.
  unfold demo_geocode. destruct (String.eqb query "Perth").
  - intros [= <-]. rewrite length_take. lia.
  - destruct (String.eqb query "Atlantis"); discriminate.
Qed.

Lemma geocode_location_contract_witness :
  ∃ cands,
    geocode_location demo_geocode "Kalgoorlie" = Ok cands
    ∧ length cands ≤ 3
    ∧ (∀ e, demo_geocode "Kalgoorlie" 3 = Raise e → cands = []).
Proof. exact (geocode_location_contract demo_geocode demo_geocode_limit _). Defined.

Example ex_geocode_perth :
  geocode_location demo_geocode "Perth"
  = Ok [mkCandidate "Perth, Western Australia, Australia" (-31.95)%Q 115.86%Q;
        mkCandidate "Perth, Scotland, United Kingdom" 56.39%Q (-3.43)%Q;
        mkCandidate "Perth, Tasmania, Australia" (-41.57)%Q 147.17%Q]
  ∧ geocode_location demo_geocode "Atlantis" = Ok []
  ∧ geocode_location demo_geocode "Kalgoorlie" = Ok [].
Proof. repeat split. Qed.

(** ** Disambiguation scorer *)

Section Scorer.

Variable context : string.

Local Abbreviation score := (score_candidate context).

Lemma Qgt_bool_spec x y : Qgt_bool x y = true ↔ (y < x)%Q.
Proof.
  unfold Qgt_bool. rewrite negb_true_iff. split.
  - intros H. apply Qnot_le_lt. intros Hle.
    apply Qle_bool_iff in Hle. congruence.
  - intros H. destruct (Qle_bool x y) eqn:E; [|done].
    apply Qle_bool_iff in E. apply Qlt_not_le in H. contradiction.
Qed.

Lemma Qgt_bool_false x y : Qgt_bool x y = false ↔ (x <= y)%Q.
Proof.
  unfold Qgt_bool. rewrite negb_false_iff. apply Qle_bool_iff.
Qed.

(** The four values that a score can take. *)
Lemma score_cases cand :
  score cand = 0%Q ∨ score cand = (0 + 0.8)%Q ∨ score cand = (0 + 0.5)%Q
  ∨ score cand = (0 + 0.8 + 0.5)%Q.
Proof.
  unfold score_candidate. cbv zeta.
  destruct (contains "western australia" (lower context)
            && contains "western australia" (lower (name cand)));
    [|destruct (contains "wa" context
                && contains "western australia" (lower (name cand)))];
    destruct (contains "australia" (lower context)
              && contains "australia" (lower (name cand))); auto.
Qed.

Lemma score_nonneg cand : (0 <= score cand)%Q.
Proof.
  destruct (score_cases cand) as [->|[->|[->| ->]]]; by vm_compute.
Qed.

(** Rounding to four decimals leaves a score as it is. *)
Lemma py_round_score cand : (py_round (score cand) 4 == score cand)%Q.
Proof.
  destruct (score_cases cand) as [->|[->|[->| ->]]]; by vm_compute.
Qed.

Lemma scan_step_best seen i best cand :
  best_so_far context seen i best →
  ∃ i' best',
    scan_step context (Some best, score best) cand = (Some best', score best')
    ∧ best_so_far context (seen ++ [cand]) i' best'.
Proof.
  intros (Hi & Hmax & Hfirst). unfold scan_step. simpl.
  destruct (Qgt_bool (score cand) (score best)) eqn:E.
  - apply Qgt_bool_spec in E. exists (length seen), cand.
    split; [done|]. split; [|split].
    + by rewrite lookup_app_r, Nat.sub_diag.
    + intros c [Hc|Hc]%elem_of_app.
      * apply Qlt_le_weak. eapply Qle_lt_trans; [by apply Hmax|done].
      * apply list_elem_of_singleton in Hc as ->. apply Qle_refl.
    + intros j c Hj Hc. rewrite lookup_app_l in Hc by done.
      eapply Qle_lt_trans; [|exact E]. apply Hmax.
      apply list_elem_of_lookup. eauto.
  - apply Qgt_bool_false in E. exists i, best.
    split; [done|]. split; [|split].
    + apply lookup_app_l_Some. exact Hi.
    + intros c [Hc|Hc]%elem_of_app; [by apply Hmax|].
      by apply list_elem_of_singleton in Hc as ->.
    + intros j c Hj Hc. apply lookup_lt_Some in Hi.
      rewrite lookup_app_l in Hc by lia. by apply (Hfirst j).
Qed.

Lemma foldl_scan_best more :
  ∀ seen i best,
    best_so_far context seen i best →
    ∃ i' best',
      foldl (scan_step context) (Some best, score best) more
      = (Some best', score best')
      ∧ best_so_far context (seen ++ more) i' best'.
Proof.
  induction more as [|cand more IH]; intros seen i best Hinv; simpl.
  - exists i, best. by rewrite app_nil_r.
  - destruct (scan_step_best seen i best cand Hinv) as (i1 & b1 & E & Hinv1).
    rewrite E. destruct (IH _ _ _ Hinv1) as (i2 & b2 & E2 & Hinv2).
    exists i2, b2. split; [exact E2|]. by rewrite <- app_assoc in Hinv2.
Qed.

Lemma scan_best first_cand more :
  ∃ i best,
    scan context (first_cand :: more) = (Some best, score best)
    ∧ best_so_far context (first_cand :: more) i best.
Proof.
  unfold scan. simpl.
  assert (scan_step context (None, (-1)%Q) first_cand
          = (Some first_cand, score first_cand)) as ->.
  { unfold scan_step. simpl.
    assert (Qgt_bool (score first_cand) (-1) = true) as ->; [|done].
    apply Qgt_bool_spec. eapply Qlt_le_trans; [|apply score_nonneg].
    by vm_compute. }
  apply (foldl_scan_best more [first_cand] 0 first_cand).
  split; [done|]. split.
  - intros c Hc. apply list_elem_of_singleton in Hc as ->. apply Qle_refl.
  - intros j c Hj. lia.
Qed.

End Scorer.

(** C5: with no candidate the result has no location, no coordinates and
    confidence 0.0. Otherwise the best candidate is the earliest one that
    attains the highest score; when its score exceeds 0.5 it is returned
    with confidence [min(round(score, 4), 1.0)], where the rounding leaves
    the score as it is; when its score is at most 0.5 the first candidate
    of the list is returned with confidence 0.25. *)
Theorem disambiguation_postcondition (context : string)
    (candidates : list Candidate) :
  let r := simulate_llm_disambiguation context candidates in
  let score := score_candidate context in
  (candidates = [] →
   chosen_location r = None ∧ coordinates r = None
   ∧ geolocation_confidence r = 0.0%Q)
  ∧ (∀ first_cand more, candidates = first_cand :: more →
     ∃ i best,
       candidates !! i = Some best
       ∧ (∀ c, c ∈ candidates → (score c <= score best)%Q)
       ∧ (∀ j c, j < i → candidates !! j = Some c → (score c < score best)%Q)
       ∧ ((0.5 < score best)%Q →
          chosen_location r = Some (name best)
          ∧ coordinates r = Some (latitude best, longitude best)
          ∧ geolocation_confidence r = Qmin (py_round (score best) 4) 1.0%Q
          ∧ (py_round (score best) 4 == score best)%Q)
       ∧ ((score best <= 0.5)%Q →
          chosen_location r = Some (name first_cand)
          ∧ coordinates r = Some (latitude first_cand, longitude first_cand)
          ∧ geolocation_confidence r = 0.25%Q)).
Proof.
  simpl. split; [by intros ->|].
  intros first_cand more ->.
  destruct (scan_best context first_cand more)
    as (i & best & E & Hi & Hmax & Hfirst).
  exists i, best. split; [exact Hi|]. split; [exact Hmax|].
  split; [exact Hfirst|].
  unfold simulate_llm_disambiguation. rewrite E. split.
  - intros Hgt. apply Qgt_bool_spec in Hgt. rewrite Hgt. simpl.
    repeat split. apply py_round_score.
  - intros Hle. apply Qgt_bool_false in Hle. rewrite Hle. by simpl.
Qed.

Lemma disambiguation_postcondition_witness :
  chosen_location
    (simulate_llm_disambiguation "A gold project in Western Australia"
       wa_candidates)
  = Some "Perth, Western Australia, Australia".
Proof.
  destruct (disambiguation_postcondition "A gold project in Western Australia"
              wa_candidates) as [_ H].
  destruct (H _ _ eq_refl) as (i & best & Hi & Hmax & _ & Hhigh & _).
  destruct i as [|[|i]]; simpl in Hi; try discriminate; injection Hi as <-.
  - exfalso.
    assert (Hin : mkCandidate "Perth, Western Australia, Australia"
                    (-31.95)%Q 115.86%Q ∈ wa_candidates)
      by (apply elem_of_cons; right; apply elem_of_cons; by left).
    apply Hmax in Hin. revert Hin. by vm_compute.
  - apply Hhigh. by vm_compute.
Defined.

(** C3, as stated, fails: the context holds neither "australia" nor a
    lower-case "wa", both candidates score 0, and the first candidate is
    returned by the fallback with confidence 0.25. *)
Lemma wa_perth_not_confident :
  let r := simulate_llm_disambiguation wa_context perth_candidates in
  ¬ (chosen_location r = Some "Perth, Australia"
     ∧ (0.5 <= snd (scan wa_context perth_candidates))%Q
     ∧ (0.5 < geolocation_confidence r)%Q).
Proof. simpl. intros (_ & _ & H). revert H. by vm_compute. Qed.

Lemma contains_western_australia x :
  contains "western australia" x = true → contains "australia" x = true.
Proof.
  intros (pre & post & ->)%contains_spec. apply contains_spec.
  exists (pre +:+ "western "), post. by rewrite str_app_assoc.
Qed.

(** A candidate whose name has no "western australia" in it can only
    earn the 0.5 for "australia", and only from a context that has
    "australia" in it: the test of line 47 plays no part. *)
Lemma score_without_cue context cand :
  contains "australia" (lower context) = false →
  contains "western australia" (lower (name cand)) = false →
  score_candidate context cand = 0%Q.
Proof.
  intros Hctx Hname. unfold score_candidate. cbv zeta.
  by rewrite Hname, Hctx, !andb_false_r.
Qed.

(** C3, amended: for the context "The project lies in WA near Perth" and a
    two-candidate list in which only the first candidate's name contains
    "australia" and that name does not contain "western australia" (such
    as "Perth, Australia" then "Perth, UK"), both candidates score 0, the
    winning score is 0, and the scorer returns the first candidate through
    the fallback, with confidence exactly 0.25. *)
Theorem wa_perth_falls_back (first_cand second_cand : Candidate) :
  contains "australia" (lower (name first_cand)) = true →
  contains "australia" (lower (name second_cand)) = false →
  contains "western australia" (lower (name first_cand)) = false →
  score_candidate wa_context first_cand = 0%Q
  ∧ score_candidate wa_context second_cand = 0%Q
  ∧ snd (scan wa_context [first_cand; second_cand]) = 0%Q
  ∧ simulate_llm_disambiguation wa_context [first_cand; second_cand]
    = mkResult (Some (name first_cand))
               (Some (latitude first_cand, longitude first_cand))
               0.25%Q AmbiguousDefault.
Proof.
  intros _ Hsecond Hfirst.
  assert (H1 : score_candidate wa_context first_cand = 0%Q)
    by (by apply score_without_cue).
  assert (H2 : score_candidate wa_context second_cand = 0%Q).
  { apply score_without_cue; [done|].
    destruct (contains "western australia" (lower (name second_cand)))
      eqn:E; [|done].
    apply contains_western_australia in E. congruence. }
  split; [exact H1|]. split; [exact H2|].
  assert (E : scan wa_context [first_cand; second_cand]
              = (Some first_cand, 0%Q)).
  { change (scan wa_context [first_cand; second_cand])
      with (scan_step wa_context
              (scan_step wa_context (None, (-1)%Q) first_cand) second_cand).
    unfold scan_step at 2. rewrite H1. cbn [snd].
    change (Qgt_bool 0 (-1)) with true. cbv iota.
    unfold scan_step. by rewrite H2. }
  split; [by rewrite E|].
  unfold simulate_llm_disambiguation. by rewrite E.
Qed.

Lemma wa_perth_falls_back_witness :
  simulate_llm_disambiguation wa_context perth_candidates
  = mkResult (Some "Perth, Australia") (Some ((-31.95)%Q, 115.86%Q))
             0.25%Q AmbiguousDefault.
Proof.
  by destruct (wa_perth_falls_back
                 (mkCandidate "Perth, Australia" (-31.95)%Q 115.86%Q)
                 (mkCandidate "Perth, UK" 56.39%Q (-3.43)%Q)
                 eq_refl eq_refl eq_refl) as (_ & _ & _ & H).
Defined.

(** C4 at a failing input: the context contains the literal "WA" and the
    name of the candidate, lowered, contains "western australia", but the
    source looks for a lower-case "wa" in the unlowered context, so no
    bonus is added and the candidate is returned by the fallback. A
    context with "wa" inside a word does get the 0.8. *)
Theorem uppercase_wa_gets_no_bonus :
  let cand := mkCandidate "Western Australia" (-25.23)%Q 121.02%Q in
  contains "WA" "Drilling in WA" = true
  ∧ contains "western australia" (lower (name cand)) = true
  ∧ score_candidate "Drilling in WA" cand = 0%Q
  ∧ simulate_llm_disambiguation "Drilling in WA" [cand] = fallback cand
  ∧ score_candidate "Tailings dam wall" cand = (0 + 0.8)%Q.
Proof. simpl. repeat split. Qed.

(** ** The geolocation pipeline *)

Section PipelineFacts.

Variable list_of_set : gset string → list string.
Variable geocode : string → nat → result (option (list Location)).
Variable json_dumps : FinalRecord → string.

Lemma geocode_location_ok location_name :
  ∃ cands, geocode_location geocode location_name = Ok cands.
Proof.
  unfold geocode_location.
  destruct (geocode location_name 3) as [[[|loc locs]|]|e]; simpl; eauto.
  destruct e; eauto.
Qed.

Lemma all_candidates_of_ok location_names :
  ∃ cands, all_candidates_of geocode location_names = Ok cands.
Proof.
  induction location_names as [|n ns [more IH]]; simpl; [eauto|].
  destruct (geocode_location_ok n) as [cs ->]. simpl. rewrite IH. simpl.
  eauto.
Qed.

(** Lines 87-88 always end in [NameError]: the text of the record is in
    the file, the newline is not. *)
Lemma append_record_raises record fs :
  append_record json_dumps record fs
  = (Raise NameError, Some (default "" fs +:+ json_dumps record)).
Proof. reflexivity. Qed.

(** A run either emits nothing or stops with [NameError] at the first
    record it emits. *)
Lemma process_records_outcome records fs :
  process_records list_of_set geocode json_dumps records fs = (Ok (), fs)
  ∨ ∃ record : FinalRecord,
      process_records list_of_set geocode json_dumps records fs
      = (Raise NameError, Some (default "" fs +:+ json_dumps record)).
Proof.
  induction records as [|m ms IH]; cbn [process_records]; [by left|].
  destruct (simulate_llm_location_extraction list_of_set _) as [|n ns];
    [exact IH|].
  destruct (all_candidates_of_ok (n :: ns)) as [[|c cs] ->]; [exact IH|].
  rewrite append_record_raises. right. eauto.
Qed.

End PipelineFacts.

(** C2 at a failing input: a run on two mentions whose sentence names
    Perth writes the text of the first record and nothing after it, and
    stops with [NameError] at [f.write]; the second record is never
    reached. Whatever the input, a run that writes anything ends in this
    way. *)
Theorem pipeline_stops_before_newline (json_dumps : FinalRecord → string) :
  run_geolocation_pipeline elements demo_geocode json_dumps
    (Some [perth_mention; perth_mention]) None
  = (Raise NameError, Some (json_dumps perth_final))
  ∧ ∀ list_of_set geocode input fs,
      let '(r, fs') :=
        run_geolocation_pipeline list_of_set geocode json_dumps input fs in
      (r = Ok () ∧ (fs' = None ∨ (input = None ∧ fs' = fs)))
      ∨ (r = Raise NameError ∧ ∃ record, fs' = Some (json_dumps record)).
Proof.
  split; [by vm_compute|].
  intros list_of_set geocode [records|] fs; simpl; [|left; auto].
  destruct (process_records_outcome list_of_set geocode json_dumps records None)
    as [->|[record ->]]; [left; auto|right]. split; [done|]. by exists record.
Qed.

(** * Further properties *)

(** ** The tokenizer of [convert_json_to_iob] *)

Section TokenizerFacts.

Lemma str_drop_drop n k s : str_drop k (str_drop n s) = str_drop (n + k) s.
Proof.
  revert s. induction n as [|n IH]; intros s; [reflexivity|].
  destruct s as [|c s]; simpl; [by destruct k|apply IH].
Qed.

Lemma str_take_app a b : str_take (String.length a) (a +:+ b) = a.
Proof.
  induction a as [|x a IH]; [by destruct b|].
  rewrite append_cons. simpl. by rewrite IH.
Qed.

Lemma str_drop_length n s :
  String.length (str_drop n s) = String.length s - n.
Proof.
  revert s. induction n as [|n IH]; intros [|c s]; simpl; auto with lia.
Qed.

Lemma find_from_sound sub s :
  ∀ pos st,
    find_from sub s pos = st → st ≠ (-1)%Z →
    ∃ k, st = (pos + Z.of_nat k)%Z ∧ k ≤ String.length s
         ∧ String.prefix sub (str_drop k s) = true.
Proof.
  induction s as [|c s IH]; intros pos st; cbn [find_from].
  - destruct (String.prefix sub "") eqn:E; intros <- Hne; [|done].
    exists 0. split; [lia|]. split; [simpl; lia|exact E].
  - destruct (String.prefix sub (String c s)) eqn:E; intros Hst Hne.
    + subst st. exists 0. split; [lia|]. split; [simpl; lia|exact E].
    + destruct (IH _ _ Hst Hne) as (k & -> & Hk & Hp).
      exists (S k). split; [lia|]. split; [simpl; lia|exact Hp].
Qed.

Lemma find_sound text sub pos st :
  (0 <= pos)%Z → find text sub pos = st → st ≠ (-1)%Z →
  (pos <= st)%Z
  ∧ (st + len sub <= len text)%Z
  ∧ String.prefix sub (str_drop (Z.to_nat st) text) = true.
Proof.
  intros Hpos. unfold find. destruct (pos <=? len text)%Z eqn:Hle; [|done].
  apply Z.leb_le in Hle. intros Hst Hne.
  destruct (find_from_sound _ _ _ _ Hst Hne) as (k & -> & Hk & Hp).
  rewrite str_drop_drop in Hp. rewrite str_drop_length in Hk.
  split; [lia|].
  replace (Z.to_nat (pos + Z.of_nat k)) with (Z.to_nat pos + k) by lia.
  split; [|exact Hp].
  apply prefix_spec in Hp as [post Hp].
  apply (f_equal String.length) in Hp.
  rewrite str_drop_length, str_length_app in Hp. unfold len in *. lia.
Qed.

Lemma prefix_take sub x :
  String.prefix sub x = true → str_take (String.length sub) x = sub.
Proof. intros [post ->]%prefix_spec. apply str_take_app. Qed.

(** When no token is skipped, every span is where its token was found. *)
Lemma token_spans_from_pairs text toks :
  ∀ pos,
    (0 <= pos)%Z →
    length (token_spans_from text toks pos) = length toks →
    Forall2 (fun tok '(st, e) =>
               (0 <= st)%Z ∧ e = (st + len tok)%Z ∧ (e <= len text)%Z
               ∧ slice text st e = tok)
            toks (token_spans_from text toks pos).
Proof.
  induction toks as [|tok toks IH]; intros pos Hpos; cbn [token_spans_from];
    [constructor|].
  destruct (find text tok pos =? -1)%Z eqn:E.
  - intros Hlen. pose proof (token_spans_from_length text toks pos).
    simpl in Hlen. lia.
  - apply Z.eqb_neq in E. intros Hlen. simpl in Hlen.
    destruct (find_sound text tok pos _ Hpos eq_refl E) as (Hle & Hhi & Hp).
    constructor.
    + split; [lia|]. split; [reflexivity|]. split; [exact Hhi|].
      unfold slice.
      replace (Z.to_nat (find text tok pos + len tok - find text tok pos))
        with (String.length tok) by (unfold len; lia).
      by apply prefix_take.
    + apply IH; [pose proof (len_nonneg tok); lia|lia].
Qed.

Lemma chain_weaken lo lo' spans :
  (lo' <= lo)%Z → chain lo spans → chain lo' spans.
Proof. destruct spans as [|[st e] more]; simpl; [done|]. intros ? [? ?]. split; [lia|done]. Qed.

Lemma chain_lookup spans :
  ∀ lo i st e,
    chain lo spans → spans !! i = Some (st, e) →
    (lo <= st < e)%Z
    ∧ ∀ j st' e', i < j → spans !! j = Some (st', e') → (e < st')%Z.
Proof.
  induction spans as [|[s0 e0] more IH]; intros lo i st e Hc Hi; [done|].
  destruct Hc as [H0 Hc]. destruct i as [|i]; simpl in Hi.
  - injection Hi as -> ->. split; [done|].
    intros [|j] st' e' Hj Hl; [lia|]. simpl in Hl.
    destruct (IH _ _ _ _ Hc Hl) as [? _]. lia.
  - destruct (IH _ _ _ _ Hc Hi) as [Hb Hlater]. split; [lia|].
    intros [|j] st' e' Hj Hl; [lia|]. simpl in Hl.
    apply (Hlater j st' e'); [lia|done].
Qed.

Lemma run_spans_chain s :
  ∀ pos cur,
    (∀ c0, cur = Some c0 → (c0 < pos)%Z) →
    match cur with
    | None => chain pos (run_spans s pos None)
    | Some c0 =>
        ∃ e more, run_spans s pos (Some c0) = (c0, e) :: more
                  ∧ (pos <= e)%Z ∧ chain (e + 1)%Z more
    end.
Proof.
  induction s as [|c s IH]; intros pos cur Hcur; cbn [run_spans].
  - destruct cur as [c0|]; [|done]. exists pos, []. by repeat split.
  - destruct (is_space c).
    + specialize (IH (pos + 1)%Z None). simpl in IH.
      destruct cur as [c0|].
      * exists pos, (run_spans s (pos + 1) None).
        split; [done|]. split; [lia|]. by apply IH.
      * eapply chain_weaken; [|by apply IH]. lia.
    + destruct cur as [c0|]; simpl.
      * specialize (Hcur c0 eq_refl).
        destruct (IH (pos + 1)%Z (Some c0)) as (e & more & -> & He & Hc);
          [intros ? [= <-]; lia|].
        exists e, more. split; [done|]. split; [lia|done].
      * destruct (IH (pos + 1)%Z (Some pos)) as (e & more & -> & He & Hc);
          [intros ? [= <-]; lia|].
        simpl. split; [lia|done].
Qed.

Lemma split_ws_tokens s :
  ∀ cur,
    all_chars (fun c => negb (is_space c)) cur = true →
    Forall (fun t => t ≠ "" ∧ all_chars (fun c => negb (is_space c)) t = true)
           (split_ws s cur).
Proof.
  induction s as [|c s IH]; intros cur Hcur; cbn [split_ws].
  - destruct cur as [|a t]; cbn [String.eqb]; [constructor|].
    constructor; [done|constructor].
  - destruct (is_space c) eqn:Hc.
    + destruct cur as [|a t]; cbn [String.eqb]; [by apply IH|].
      constructor; [done|by apply IH].
    + apply IH. apply all_chars_snoc; [done|by rewrite Hc].
Qed.

Lemma split_ws_nil s :
  ∀ cur, split_ws s cur = [] ↔ cur = "" ∧ all_chars is_space s = true.
Proof.
  induction s as [|c s IH]; intros cur; cbn [split_ws all_chars].
  - destruct cur as [|a t]; cbn [String.eqb].
    + by split.
    + split; [done|by intros [? _]].
  - destruct (is_space c) eqn:Hc; simpl.
    + destruct cur as [|a t]; cbn [String.eqb].
      * rewrite IH. tauto.
      * split; [done|by intros [? _]].
    + rewrite IH. split; [|by intros [_ ?]].
      intros [H _]. by destruct cur.
Qed.

End TokenizerFacts.

(** X1: no token is skipped when the spans are computed: the span list
    has one span per token of [text.split()], and the [i]-th span
    delimits the [i]-th token, [text[st:e] = token]. *)
Theorem token_spans_delimit_tokens (text : string) :
  length (token_spans text) = length (split text)
  ∧ ∀ i tok st e,
      split text !! i = Some tok →
      token_spans text !! i = Some (st, e) →
      (0 <= st)%Z ∧ e = (st + len tok)%Z ∧ (e <= len text)%Z
      ∧ slice text st e = tok.
Proof.
  pose proof (token_spans_complete text) as Hlen. split; [exact Hlen|].
  intros i tok st e Htok Hspan.
  pose proof (token_spans_from_pairs text (split text) 0%Z (Z.le_refl _) Hlen)
    as HF.
  destruct (Forall2_lookup_l _ _ _ _ _ HF Htok) as ([st' e'] & Hs & H).
  unfold token_spans in Hspan. rewrite Hs in Hspan. by injection Hspan as -> ->.
Qed.

Lemma token_spans_delimit_tokens_witness :
  slice acme_text 10 17 = "Project".
Proof.
  destruct (token_spans_delimit_tokens acme_text) as [_ H].
  destruct (H 2 "Project" 10%Z 17%Z eq_refl eq_refl) as (_ & _ & _ & Hs).
  exact Hs.
Defined.

(** X2: the token spans are non-empty, lie inside the text, and are in
    order and apart: a later span starts after the end of an earlier
    one. *)
Theorem token_spans_ordered (text : string) :
  ∀ i st e,
    token_spans text !! i = Some (st, e) →
    (0 <= st < e)%Z ∧ (e <= len text)%Z
    ∧ ∀ j st' e', i < j → token_spans text !! j = Some (st', e') → (e < st')%Z.
Proof.
  intros i st e Hi.
  pose proof (run_spans_chain text 0%Z None) as Hc. simpl in Hc.
  rewrite <- token_spans_runs in Hc.
  destruct (chain_lookup _ _ _ _ _ (Hc ltac:(done)) Hi) as [Hb Hlater].
  split; [exact Hb|]. split; [|exact Hlater].
  destruct (lookup_lt_is_Some_2 (split text) i) as [tok Htok].
  { rewrite <- token_spans_complete. by eapply lookup_lt_Some. }
  pose proof (token_spans_from_pairs text (split text) 0%Z (Z.le_refl _)
                (token_spans_complete text)) as HF.
  destruct (Forall2_lookup_l _ _ _ _ _ HF Htok)
    as ([st' e'] & Hs & _ & _ & Hhi & _).
  unfold token_spans in Hi. rewrite Hs in Hi. by injection Hi as -> ->.
Qed.

Lemma token_spans_ordered_witness :
  (0 <= 5 < 9)%Z ∧ (9 <= len acme_text)%Z.
Proof.
  destruct (token_spans_ordered acme_text 1 5%Z 9%Z eq_refl) as (H1 & H2 & _).
  by split.
Defined.

(** X3: every token of [text.split()] is non-empty and free of
    whitespace, and there is no token exactly when the text is made of
    whitespace only. *)
Theorem split_tokens_wellformed (text : string) :
  (∀ tok, tok ∈ split text →
          tok ≠ "" ∧ all_chars (fun c => negb (is_space c)) tok = true)
  ∧ (split text = [] ↔ all_chars is_space text = true).
Proof.
  split.
  - intros tok Hin.
    pose proof (split_ws_tokens text "" eq_refl) as HF.
    rewrite Forall_forall in HF. by apply HF.
  - unfold split. rewrite split_ws_nil. tauto.
Qed.

Lemma split_tokens_wellformed_witness : "Gold" ≠ "".
Proof.
  destruct (split_tokens_wellformed acme_text) as [H _].
  apply (H "Gold"). unfold acme_text. vm_compute.
  apply elem_of_cons. right. apply elem_of_cons. by left.
Defined.

(** ** The aligner of [convert_json_to_iob] on any annotation list *)

Section AlignerFacts.

Implicit Types (toks : list (Z * Z)) (tags : list string).

Lemma tag_tokens_inv st e label toks :
  ∀ k first tags tags',
    tag_tokens st e label toks k first tags = Ok tags' →
    length tags' = length tags
    ∧ ∀ j, tags' !! j = tags !! j
           ∨ tags' !! j = Some ("B-" +:+ label)
           ∨ tags' !! j = Some ("I-" +:+ label).
Proof.
  induction toks as [|[ts te] toks IH]; intros k first tags tags';
    cbn [tag_tokens].
  - intros [= <-]. auto.
  - destruct e as [e|]; [|done]. simpl.
    destruct (Z.max st ts <? Z.min e te)%Z.
    + unfold set_item. destruct (k <? length tags) eqn:Hk; [|done]. simpl.
      intros H. apply IH in H as [L Hj]. rewrite length_insert in L.
      split; [exact L|]. intros j. destruct (Hj j) as [Hs|Hs]; [|by right].
      rewrite Hs. destruct (decide (k = j)) as [<-|Hne].
      * apply Nat.ltb_lt in Hk. rewrite list_lookup_insert_eq by done.
        right. destruct first; auto.
      * left. by apply list_lookup_insert_ne.
    + apply IH.
Qed.

Lemma process_ann_inv toks tags ann tags' :
  process_ann toks tags ann = Ok tags' →
  length tags' = length tags
  ∧ (Forall (fun t => t ∈ label_list) tags →
     Forall (fun t => t ∈ label_list) tags').
Proof.
  unfold process_ann. destruct (get_value ann) as [val|]; [|done]. simpl.
  destruct (first_label val) as [l|]; [|done].
  simpl. destruct l as [l|]; [|by intros [= <-]].
  destruct (v_start val) as [st|]; [|by intros [= <-]].
  destruct (String.eqb l "PROJECT") eqn:Hl; [|by intros [= <-]].
  apply String.eqb_eq in Hl. subst l. intros H.
  apply tag_tokens_inv in H as [L Hj]. split; [exact L|].
  rewrite !Forall_lookup. intros Hall j t Ht.
  destruct (Hj j) as [Hs|[Hs|Hs]]; rewrite Hs in Ht.
  - by apply (Hall j).
  - injection Ht as <-. unfold label_list.
    apply elem_of_cons. right. apply elem_of_cons. by left.
  - injection Ht as <-. unfold label_list.
    apply elem_of_cons. right. apply elem_of_cons. right.
    apply elem_of_cons. by left.
Qed.

Lemma process_anns_inv toks anns :
  ∀ tags tags',
    process_anns toks tags anns = Ok tags' →
    length tags' = length tags
    ∧ (Forall (fun t => t ∈ label_list) tags →
       Forall (fun t => t ∈ label_list) tags').
Proof.
  induction anns as [|a anns IH]; intros tags tags'; cbn [process_anns].
  - by intros [= <-].
  - destruct (process_ann toks tags a) as [t|] eqn:E; [|done]. simpl.
    intros H. apply IH in H as [L2 H2].
    apply process_ann_inv in E as [L1 H1]. split; [lia|auto].
Qed.

Lemma convert_record_inv text anns r :
  convert_record text anns = Ok r →
  tokens r = split text
  ∧ length (ner_tags r) = length (tokens r)
  ∧ Forall (fun t => t ∈ label_list) (ner_tags r).
Proof.
  unfold convert_record.
  destruct (process_anns _ _ anns) as [tags|] eqn:E; [|done].
  simpl. intros [= <-]. simpl.
  apply process_anns_inv in E as [L H]. rewrite length_replicate in L.
  split; [done|]. split; [done|]. apply H.
  apply Forall_forall. intros t Ht. apply elem_of_replicate in Ht as [-> _].
  unfold label_list. apply elem_of_cons. by left.
Qed.

(** One span of the data model, as a function on the tags. *)
Lemma process_ann_apply toks tags s :
  length toks ≤ length tags →
  process_ann toks tags (ann_of_span s) = Ok (apply_span s toks tags).
Proof.
  intros Hlen.
  destruct (process_ann_span toks tags s Hlen) as (tags' & E & L & Hhi & Hin).
  rewrite E. f_equal. apply list_eq. intros j.
  unfold apply_span. rewrite list_lookup_imap.
  destruct (toks !! j) as [tok|] eqn:Htok.
  - destruct (Hin j tok Htok) as [Hyes Hno].
    destruct (lookup_lt_is_Some_2 tags j) as [t Ht].
    { apply lookup_lt_Some in Htok. lia. }
    rewrite Ht. simpl. destruct (decide (affects s tok)) as [Ha|Ha].
    + by apply Hyes.
    + rewrite <- Ht. by apply Hno.
  - rewrite Hhi by (by apply lookup_ge_None).
    by destruct (tags !! j).
Qed.

Lemma apply_span_length s toks tags :
  length (apply_span s toks tags) = length tags.
Proof. unfold apply_span. apply length_imap. Qed.

Lemma apply_span_lookup s toks tags j :
  apply_span s toks tags !! j
  = match toks !! j with
    | Some tok =>
        if decide (affects s tok)
        then (fun _ => tag_of s toks j) <$> tags !! j
        else tags !! j
    | None => tags !! j
    end.
Proof.
  unfold apply_span. rewrite list_lookup_imap.
  destruct (toks !! j) as [tok|]; [destruct (decide _)|];
    by destruct (tags !! j).
Qed.

Lemma apply_span_idem s toks tags :
  apply_span s toks (apply_span s toks tags) = apply_span s toks tags.
Proof.
  apply list_eq. intros j. rewrite !apply_span_lookup.
  destruct (toks !! j) as [tok|]; [|done].
  destruct (decide (affects s tok)); [|done]. by destruct (tags !! j).
Qed.

Lemma apply_span_comm s1 s2 toks tags :
  (∀ tok, tok ∈ toks → ¬ (affects s1 tok ∧ affects s2 tok)) →
  apply_span s1 toks (apply_span s2 toks tags)
  = apply_span s2 toks (apply_span s1 toks tags).
Proof.
  intros Hdis. apply list_eq. intros j. rewrite !apply_span_lookup.
  destruct (toks !! j) as [tok|] eqn:Htok; [|done].
  destruct (decide (affects s1 tok)) as [H1|H1];
    destruct (decide (affects s2 tok)) as [H2|H2]; try done.
  exfalso. apply (Hdis tok); [|done]. apply list_elem_of_lookup. eauto.
Qed.

Lemma process_anns_spans_apply toks spans :
  ∀ tags,
    length toks ≤ length tags →
    process_anns toks tags (ann_of_span <$> spans)
    = Ok (foldl (fun t s => apply_span s toks t) tags spans).
Proof.
  induction spans as [|s spans IH]; intros tags Hlen; [reflexivity|].
  rewrite fmap_cons. cbn [process_anns foldl].
  rewrite process_ann_apply by done. simpl.
  apply IH. by rewrite apply_span_length.
Qed.

Lemma convert_record_spans text spans :
  convert_record text (ann_of_span <$> spans)
  = Ok (mkIOB (split text)
          (foldl (fun t s => apply_span s (token_spans text) t)
                 (replicate (length (split text)) "O") spans)).
Proof.
  unfold convert_record. rewrite process_anns_spans_apply; [done|].
  rewrite length_replicate. apply token_spans_length.
Qed.

(** In a chain of token spans, the tokens that overlap a span are next to
    each other. *)
Lemma overlaps_between s toks lo i j k ti tj tk :
  chain lo toks →
  i < j → j < k →
  toks !! i = Some ti → toks !! j = Some tj → toks !! k = Some tk →
  overlaps s ti → overlaps s tk → overlaps s tj.
Proof.
  intros Hc Hij Hjk Hi Hj Hk. destruct ti as [si ei], tj as [sj ej], tk as [sk ek].
  destruct (chain_lookup _ _ _ _ _ Hc Hi) as [Hbi Hli].
  destruct (chain_lookup _ _ _ _ _ Hc Hj) as [Hbj Hlj].
  specialize (Hli j sj ej Hij Hj). specialize (Hlj k sk ek Hjk Hk).
  unfold overlaps. simpl. lia.
Qed.

Lemma last_affecting spans tok :
  (∃ s, s ∈ spans ∧ affects s tok) →
  ∃ before s after,
    spans = before ++ s :: after ∧ affects s tok
    ∧ ∀ s', s' ∈ after → ¬ affects s' tok.
Proof.
  induction spans as [|x spans IH] using rev_ind.
  - intros (s & Hs & _). by apply elem_of_nil in Hs.
  - intros (s & Hs & Ha). destruct (decide (affects x tok)) as [Hx|Hx].
    + exists spans, x, []. split; [done|]. split; [done|].
      intros s' Hs'. by apply elem_of_nil in Hs'.
    + apply elem_of_app in Hs as [Hs|Hs];
        [|apply list_elem_of_singleton in Hs; by subst].
      destruct IH as (before & s0 & after & -> & Ha0 & Hafter); [by eauto|].
      exists before, s0, (after ++ [x]).
      split; [by rewrite <- app_assoc|]. split; [done|].
      intros s' [Hs'|Hs']%elem_of_app; [by apply Hafter|].
      apply list_elem_of_singleton in Hs'. by subst.
Qed.

Lemma tag_of_cases s toks i :
  tag_of s toks i = "B-PROJECT" ∨ tag_of s toks i = "I-PROJECT".
Proof. unfold tag_of. destruct (existsb _ _); auto. Qed.

End AlignerFacts.

(** X4: whatever the annotations of a record are, when the conversion
    returns, the tokens are [text.split()], there is one tag per token,
    and every tag is [O], [B-PROJECT] or [I-PROJECT]. *)
Theorem convert_record_wellformed (text : string) (anns : list Ann)
    (r : IOBRecord) :
  convert_record text anns = Ok r →
  tokens r = split text
  ∧ length (ner_tags r) = length (tokens r)
  ∧ ∀ tag, tag ∈ ner_tags r →
           tag = "O" ∨ tag = "B-PROJECT" ∨ tag = "I-PROJECT".
Proof.
  intros H. apply convert_record_inv in H as (Ht & Hl & Ha).
  split; [done|]. split; [done|]. intros tag Hin.
  rewrite Forall_forall in Ha. by apply label_list_cases, Ha.
Qed.

Lemma convert_record_wellformed_witness :
  length ["B-PROJECT"; "I-PROJECT"; "I-PROJECT"; "O"; "O"]
  = length ["Acme"; "Gold"; "Project"; "near"; "Kalgoorlie"].
Proof.
  destruct (convert_record_wellformed acme_text [ann_of_span acme_span]
              (mkIOB ["Acme"; "Gold"; "Project"; "near"; "Kalgoorlie"]
                     ["B-PROJECT"; "I-PROJECT"; "I-PROJECT"; "O"; "O"])
              eq_refl) as (_ & H & _).
  exact H.
Defined.

(** X5: the tags that the conversion returns are encoded without loss by
    the label encoding of [fine_tune_ner_model]: no tag falls back to the
    default id, every id is 0, 1 or 2, and decoding the ids gives the tags
    back. *)
Theorem convert_then_encode_lossless (text : string) (anns : list Ann)
    (r : IOBRecord) :
  convert_record text anns = Ok r →
  decode_ids (encode_tags (ner_tags r)) = Some <$> ner_tags r
  ∧ (∀ tag, tag ∈ ner_tags r → label_encoding !! tag = Some (encode_tag tag))
  ∧ (∀ id, id ∈ encode_tags (ner_tags r) → (0 <= id < 3)%Z).
Proof.
  intros H. apply convert_record_inv in H as (_ & _ & Ha).
  split; [by apply decode_encode_tags|]. split.
  - intros tag Hin. rewrite Forall_forall in Ha.
    destruct (label_list_cases tag (Ha tag Hin)) as [->|[->| ->]]; reflexivity.
  - intros id Hin. unfold encode_tags in Hin.
    apply list_elem_of_fmap in Hin as (tag & -> & _).
    destruct (encode_tag_range tag) as [->|[->| ->]]; lia.
Qed.

Lemma convert_then_encode_lossless_witness :
  decode_ids (encode_tags ["B-PROJECT"; "I-PROJECT"; "I-PROJECT"; "O"; "O"])
  = Some <$> ["B-PROJECT"; "I-PROJECT"; "I-PROJECT"; "O"; "O"].
Proof.
  destruct (convert_then_encode_lossless acme_text [ann_of_span acme_span]
              (mkIOB ["Acme"; "Gold"; "Project"; "near"; "Kalgoorlie"]
                     ["B-PROJECT"; "I-PROJECT"; "I-PROJECT"; "O"; "O"])
              eq_refl) as (H & _).
  exact H.
Defined.

(** X6: for every record of the data model the tag sequence is a valid
    BIO sequence: a token tagged [I-PROJECT] is never the first token, and
    the token before it is tagged [B-PROJECT] or [I-PROJECT]. *)
Theorem converted_tags_valid_bio (text : string) (spans : list Span) :
  ∃ tags,
    convert_record text (ann_of_span <$> spans) = Ok (mkIOB (split text) tags)
    ∧ ∀ i, tags !! i = Some "I-PROJECT" →
           ∃ i', i = S i'
                 ∧ (tags !! i' = Some "B-PROJECT"
                    ∨ tags !! i' = Some "I-PROJECT").
Proof.
  set (toks := token_spans text).
  destruct (process_anns_spec toks (replicate (length (split text)) "O") spans)
    as (tags & E & L & _ & Hspec).
  { rewrite length_replicate. apply token_spans_length. }
  rewrite length_replicate in L.
  exists tags. split; [unfold convert_record; fold toks; by rewrite E|].
  assert (Hchain : chain 0 toks).
  { unfold toks. rewrite token_spans_runs.
    by apply (run_spans_chain text 0%Z None). }
  assert (Htagged : ∀ j tok s,
            toks !! j = Some tok → s ∈ spans → affects s tok →
            tags !! j = Some "B-PROJECT" ∨ tags !! j = Some "I-PROJECT").
  { intros j tok s Hj Hs Ha.
    destruct (last_affecting spans tok) as (before & s0 & after & Es & Ha0 & Hafter);
      [by eauto|].
    destruct (Hspec j tok Hj) as [_ Hlast].
    rewrite (Hlast before s0 after Es Ha0 Hafter).
    destruct (tag_of_cases s0 toks j) as [-> | ->]; auto. }
  intros i Hi.
  destruct (lookup_lt_is_Some_2 toks i) as [tok Htok].
  { apply lookup_lt_Some in Hi. unfold toks.
    rewrite token_spans_complete. lia. }
  destruct (Hspec i tok Htok) as [Hnone Hlast].
  destruct (decide (Exists (fun s => affects s tok) spans)) as [Hex|Hex].
  - apply Exists_exists in Hex.
    destruct (last_affecting spans tok Hex)
      as (before & s & after & Es & Ha & Hafter).
    rewrite (Hlast before s after Es Ha Hafter) in Hi.
    injection Hi as Hi. unfold tag_of in Hi.
    destruct (existsb _ _) eqn:Hearlier; [|done].
    apply existsb_earlier in Hearlier as (j & tj & Hj & Htj & Hov).
    destruct i as [|i']; [lia|]. exists i'. split; [done|].
    destruct (lookup_lt_is_Some_2 toks i') as [t' Ht'].
    { apply lookup_lt_Some in Htok. lia. }
    apply (Htagged i' t' s Ht').
    + rewrite Es. apply elem_of_app. right. apply elem_of_cons. by left.
    + split; [apply Ha|]. destruct (decide (j = i')) as [->|Hne].
      * rewrite Ht' in Htj. by injection Htj as ->.
      * apply (overlaps_between s toks 0%Z j i' (S i') tj t' tok);
          try done; [lia|lia|apply Ha].
  - rewrite Hnone in Hi.
    + apply lookup_replicate in Hi as [Hi _]. done.
    + intros s Hs Ha. apply Hex, Exists_exists. eauto.
Qed.

Lemma converted_tags_valid_bio_witness :
  ∃ tags,
    convert_record acme_text (ann_of_span <$> [acme_span])
    = Ok (mkIOB (split acme_text) tags)
    ∧ (tags !! 1 = Some "B-PROJECT" ∨ tags !! 1 = Some "I-PROJECT").
Proof.
  destruct (converted_tags_valid_bio acme_text [acme_span]) as (tags & E & H).
  exists tags. split; [exact E|].
  assert (Hi : tags !! 2 = Some "I-PROJECT").
  { revert E. unfold convert_record. simpl. by intros [= <-]. }
  destruct (H 2 Hi) as (i' & [= <-] & Hprev). exact Hprev.
Defined.

(** X7: a [PROJECT] result with a start and no end makes the conversion of
    a record raise [TypeError] exactly when the text has a token; on a
    text of whitespace the overlap test is never reached. *)
Theorem open_ended_span_raises (text : string) (st : Z)
    (more : list (option string)) :
  (split text ≠ [] →
   convert_record text [open_ended st more] = Raise TypeError)
  ∧ (split text = [] →
     convert_record text [open_ended st more] = Ok (mkIOB [] [])).
Proof.
  unfold convert_record, open_ended. simpl.
  pose proof (token_spans_complete text) as Hlen.
  destruct (token_spans text) as [|[ts te] toks];
    destruct (split text) as [|tok ws]; try done.
Qed.

Lemma open_ended_span_raises_witness :
  convert_record acme_text [open_ended 0 []] = Raise TypeError.
Proof.
  destruct (open_ended_span_raises acme_text 0 []) as [H _].
  apply H. discriminate.
Defined.

(** X8: when [convert_json_to_iob] returns, its result has one IOB record
    for every input record with a non-empty text, in the order of the
    input, with the tokens of that text; records without text leave no
    trace, so the result can be shorter than the input. *)
Theorem convert_json_to_iob_skips_empty (data : list LSRecord)
    (out : list IOBRecord) :
  convert_json_to_iob (Some data) = Ok out →
  tokens <$> out
  = (fun record => split (default "" (r_text record)))
      <$> filter (fun record => has_text record = true) data.
Proof.
  simpl. revert out. induction data as [|record data IH]; intros out;
    cbn [convert_records].
  - by intros [= <-].
  - destruct (get_text record) as [text|] eqn:Et; [|done]. simpl.
    assert (text = default "" (r_text record)) as ->.
    { revert Et. unfold get_text.
      destruct (r_data record); [by intros [= <-]|done|by intros [= <-]]. }
    destruct (String.eqb (default "" (r_text record)) "") eqn:E.
    + rewrite filter_cons_False by (unfold has_text; by rewrite E).
      apply IH.
    + rewrite filter_cons_True by (unfold has_text; by rewrite E).
      destruct (get_annotations record) as [anns|]; [|done]. simpl.
      destruct (convert_record _ anns) as [r|] eqn:Er; [|done]. simpl.
      destruct (convert_records data) as [rs|]; [|done]. simpl.
      intros [= <-]. rewrite !fmap_cons. f_equal; [|by apply IH].
      by apply convert_record_inv in Er as [-> _].
Qed.

Lemma convert_json_to_iob_skips_empty_witness :
  tokens <$> [mkIOB ["Acme"; "Gold"; "Project"; "near"; "Kalgoorlie"]
                    ["B-PROJECT"; "I-PROJECT"; "I-PROJECT"; "O"; "O"]]
  = [["Acme"; "Gold"; "Project"; "near"; "Kalgoorlie"]].
Proof.
  exact (convert_json_to_iob_skips_empty
           [mkLSRecord Absent Absent;
            mkLSRecord (Present (mkData (Some acme_text)))
              (Present [mkCompletion (Present [ann_of_span acme_span])]);
            mkLSRecord (Present (mkData (Some ""))) (Present []);
            mkLSRecord (Present (mkData None)) Null]
           _ eq_refl).
Defined.

(** X9: listing a span of the data model twice in a row changes
    nothing. *)
Theorem repeated_span_is_idempotent (text : string)
    (before after : list Span) (s : Span) :
  convert_record text (ann_of_span <$> (before ++ [s; s] ++ after))
  = convert_record text (ann_of_span <$> (before ++ [s] ++ after)).
Proof.
  rewrite !convert_record_spans. do 2 f_equal.
  rewrite !foldl_app. simpl. by rewrite apply_span_idem.
Qed.

(** X10: two neighbouring spans of the data model that affect no common
    token can be exchanged: the order of the annotations matters only for
    the tokens on which they meet. *)
Theorem disjoint_spans_commute (text : string) (before after : list Span)
    (s1 s2 : Span) :
  (∀ tok, tok ∈ token_spans text → ¬ (affects s1 tok ∧ affects s2 tok)) →
  convert_record text (ann_of_span <$> (before ++ [s1; s2] ++ after))
  = convert_record text (ann_of_span <$> (before ++ [s2; s1] ++ after)).
Proof.
  intros Hdis. rewrite !convert_record_spans. do 2 f_equal.
  rewrite !foldl_app. simpl. f_equal. symmetry. by apply apply_span_comm.
Qed.

Lemma disjoint_spans_commute_witness :
  convert_record acme_text
    (ann_of_span <$> [mkSpan 0 9 "PROJECT"; mkSpan 23 33 "PROJECT"])
  = convert_record acme_text
      (ann_of_span <$> [mkSpan 23 33 "PROJECT"; mkSpan 0 9 "PROJECT"]).
Proof.
  apply (disjoint_spans_commute acme_text [] []
           (mkSpan 0 9 "PROJECT") (mkSpan 23 33 "PROJECT")).
  intros tok Hin [[_ H1] [_ H2]]. unfold overlaps in *. simpl in *.
  change (token_spans acme_text)
    with [(0, 4); (5, 9); (10, 17); (18, 22); (23, 33)]%Z in Hin.
  repeat (apply elem_of_cons in Hin as [->|Hin]; [simpl in *; lia|]).
  by apply elem_of_nil in Hin.
Defined.

(** ** Sub-word alignment of [tokenize_and_align] *)

Section WordPieces.

Implicit Types (label : list Z) (word_ids : list (option nat)).

Lemma align_labels_same label w k :
  ∀ more,
    align_labels label (replicate k (Some w) ++ more) (Some w)
    = align_labels label more (Some w)
      ≫= fun ys => Ok (replicate k ignore_index ++ ys).
Proof.
  induction k as [|k IH]; intros more; simpl.
  - by destruct (align_labels label more (Some w)).
  - rewrite decide_True by done. simpl. rewrite IH.
    by destruct (align_labels label more (Some w)).
Qed.

Lemma align_labels_group label w k x previous more :
  previous ≠ Some w →
  label !! w = Some x →
  align_labels label (replicate (S k) (Some w) ++ more) previous
  = align_labels label more (Some w)
    ≫= fun ys => Ok (x :: replicate k ignore_index ++ ys).
Proof.
  intros Hp Hx. cbn [replicate app align_labels].
  rewrite decide_False by congruence. unfold get_item. rewrite Hx. simpl.
  rewrite align_labels_same. by destruct (align_labels label more (Some w)).
Qed.

Lemma filter_ignore_replicate k (ys : list Z) :
  filter (fun id => id ≠ ignore_index) (replicate k ignore_index ++ ys)
  = filter (fun id => id ≠ ignore_index) ys.
Proof.
  induction k as [|k IH]; [done|]. simpl. by rewrite filter_cons_False by auto.
Qed.

Lemma align_word_groups label counts :
  ∀ w0 previous,
    previous ≠ Some w0 →
    w0 + length counts ≤ length label →
    Forall (fun id => id ≠ ignore_index) label →
    ∃ out,
      align_labels label (word_groups w0 counts ++ [None]) previous = Ok out
      ∧ length out = length (word_groups w0 counts) + 1
      ∧ filter (fun id => id ≠ ignore_index) out
        = take (length counts) (drop w0 label).
Proof.
  induction counts as [|k counts IH]; intros w0 previous Hp Hlen Hlab.
  - exists [ignore_index]. split; [done|]. split; [done|].
    by rewrite filter_cons_False by auto.
  - cbn [word_groups length] in *.
    destruct (lookup_lt_is_Some_2 label w0) as [x Hx]; [lia|].
    destruct (IH (S w0) (Some w0)) as (ys & E & L & F);
      [intros [=]; lia|lia|done|].
    rewrite <- app_assoc, (align_labels_group label w0 k x) by done.
    rewrite E. simpl. eexists. split; [reflexivity|]. split.
    + simpl. rewrite !length_app, !length_replicate, L. simpl. lia.
    + rewrite filter_cons_True
        by (rewrite Forall_lookup in Hlab; exact (Hlab w0 x Hx)).
      rewrite filter_ignore_replicate, F.
      by rewrite (drop_S label x w0 Hx).
Qed.

Lemma align_labels_leading label word_ids :
  ∀ previous,
    (Forall (fun w => w < length label) (leading_ids word_ids previous) →
     ∃ out, align_labels label word_ids previous = Ok out
            ∧ length out = length word_ids)
    ∧ (Exists (fun w => length label ≤ w) (leading_ids word_ids previous) →
       align_labels label word_ids previous = Raise IndexError).
Proof.
  induction word_ids as [|wid word_ids IH]; intros previous;
    cbn [leading_ids align_labels].
  - split; [by exists []|]. intros H. by apply Exists_nil in H.
  - destruct wid as [w|].
    + destruct (IH (Some w)) as [IHok IHbad].
      destruct (decide (Some w = previous)) as [Heq|Hne].
      * split.
        -- intros H. destruct (IHok H) as (out & -> & L). simpl.
           eexists. split; [reflexivity|]. simpl. lia.
        -- intros H. by rewrite (IHbad H).
      * unfold get_item. split.
        -- intros [Hw H]%Forall_cons.
           destruct (lookup_lt_is_Some_2 label w Hw) as [x ->]. simpl.
           destruct (IHok H) as (out & -> & L). simpl.
           eexists. split; [reflexivity|]. simpl. lia.
        -- intros [Hw|H]%Exists_cons.
           ++ by rewrite (lookup_ge_None_2 label w Hw).
           ++ destruct (label !! w); [|done]. simpl. by rewrite (IHbad H).
    + destruct (IH None) as [IHok IHbad]. split.
      * intros H. destruct (IHok H) as (out & -> & L). simpl.
        eexists. split; [reflexivity|]. simpl. lia.
      * intros H. simpl. by rewrite (IHbad H).
Qed.

End WordPieces.

(** X11: for the word ids of a sentence whose words are cut into one or
    more pieces each, between the two special pieces, the labels that are
    not the ignore value are, in order, the labels of the words the pieces
    cover: dropping the ignored positions gives the word labels back (a
    prefix of them when the sentence was truncated). *)
Theorem aligned_labels_recover_word_labels (label : list Z)
    (counts : list nat) :
  length counts ≤ length label →
  Forall (fun id => id ≠ ignore_index) label →
  ∃ out,
    tokenize_and_align label (grouped_word_ids counts) = Ok out
    ∧ length out = length (grouped_word_ids counts)
    ∧ filter (fun id => id ≠ ignore_index) out = take (length counts) label.
Proof.
  intros Hlen Hlab. unfold tokenize_and_align, grouped_word_ids.
  destruct (align_word_groups label counts 0 None) as (out & E & L & F);
    [done|done|done|].
  cbn [align_labels]. rewrite E. simpl.
  exists (ignore_index :: out). split; [done|]. split.
  - simpl. rewrite length_app, L. simpl. lia.
  - by rewrite filter_cons_False by auto.
Qed.

Lemma aligned_labels_recover_word_labels_witness :
  ∃ out,
    tokenize_and_align [1; 2; 0]%Z (grouped_word_ids [0; 2; 1]) = Ok out
    ∧ length out = length (grouped_word_ids [0; 2; 1])
    ∧ filter (fun id => id ≠ ignore_index) out = take 3 [1; 2; 0]%Z.
Proof.
  apply (aligned_labels_recover_word_labels [1; 2; 0]%Z [0; 2; 1]).
  - simpl. lia.
  - repeat constructor; discriminate.
Defined.

(** X12: [tokenize_and_align] reads [label[word_idx]] only for the pieces
    that are the first of their word: it returns, with one label per
    piece, when all these word ids are below [len(label)], and raises
    [IndexError] when one of them is not. *)
Theorem tokenize_and_align_bounds (label : list Z)
    (word_ids : list (option nat)) :
  (Forall (fun w => w < length label) (leading_ids word_ids None) →
   ∃ out, tokenize_and_align label word_ids = Ok out
          ∧ length out = length word_ids)
  ∧ (Exists (fun w => length label ≤ w) (leading_ids word_ids None) →
     tokenize_and_align label word_ids = Raise IndexError).
Proof. apply align_labels_leading. Qed.

Lemma tokenize_and_align_bounds_witness :
  tokenize_and_align [1; 2]%Z [None; Some 0; Some 0; Some 2] = Raise IndexError.
Proof.
  destruct (tokenize_and_align_bounds [1; 2]%Z [None; Some 0; Some 0; Some 2])
    as [_ H].
  apply H. simpl. apply Exists_cons. right. apply Exists_cons. left.
  simpl. lia.
Defined.

(** ** The matches of the location pattern *)

Section RegexFacts.

Lemma str_app_nil_r a : a +:+ "" = a.
Proof. induction a as [|x a IH]; [done|]. by rewrite append_cons, IH. Qed.

Lemma eat_sound p c c' :
  eat p c = Some c' → ∃ a, p a = true ∧ rest c = String a (rest c').
Proof.
  unfold eat. destruct (rest c) as [|a s]; [done|].
  destruct (p a) eqn:Hp; [|done]. intros [= <-]. by exists a.
Qed.

Lemma iterate_sound m r :
  sound m r →
  ∀ n c k e, iterate m k n c = Some e →
             ∃ w c', lang (RStar r) w ∧ rest c = w +:+ rest c'
                     ∧ k c' = Some e.
Proof.
  intros Hm. induction n as [|n IH]; intros c k e; cbn [iterate].
  - intros H. exists "", c. split; [constructor|]. by split.
  - destruct (m c _) as [e'|] eqn:E.
    + intros [= ->]. apply Hm in E as (w1 & c1 & Hw1 & Hr1 & Hk).
      destruct (String.length (rest c1) <? String.length (rest c)); [|done].
      apply IH in Hk as (w2 & c2 & Hw2 & Hr2 & Hk).
      exists (w1 +:+ w2), c2. split; [by constructor|]. split; [|done].
      by rewrite Hr1, Hr2, str_app_assoc.
    + intros H. exists "", c. split; [constructor|]. by split.
Qed.

Lemma rmatch_sound r : sound (rmatch r) r.
Proof.
  induction r as [p|a| |r1 IH1 r2 IH2|r IH|r IH]; intros c k e;
    cbn [rmatch].
  - destruct (eat p c) as [c'|] eqn:E; [|done]. intros Hk.
    apply eat_sound in E as (a & Hp & Hr).
    exists (String a ""), c'. split; [by constructor|]. by split.
  - destruct (eat (Ascii.eqb a) c) as [c'|] eqn:E; [|done]. intros Hk.
    apply eat_sound in E as (b & Hp & Hr). apply Ascii.eqb_eq in Hp as <-.
    exists (String a ""), c'. split; [constructor|]. by split.
  - destruct (at_word_boundary c); [|done]. intros Hk.
    exists "", c. split; [constructor|]. by split.
  - intros H. apply IH1 in H as (w1 & c1 & Hw1 & Hr1 & H).
    apply IH2 in H as (w2 & c2 & Hw2 & Hr2 & H).
    exists (w1 +:+ w2), c2. split; [by constructor|]. split; [|done].
    by rewrite Hr1, Hr2, str_app_assoc.
  - apply (iterate_sound _ _ IH).
  - intros H. apply IH in H as (w1 & c1 & Hw1 & Hr1 & H).
    apply (iterate_sound _ _ IH) in H as (w2 & c2 & Hw2 & Hr2 & H).
    exists (w1 +:+ w2), c2. split; [by constructor|]. split; [|done].
    by rewrite Hr1, Hr2, str_app_assoc.
Qed.

Lemma match_at_sound r c n :
  match_at r c = Some n →
  ∃ post, rest c = str_take n (rest c) +:+ post ∧ lang r (str_take n (rest c)).
Proof.
  unfold match_at. destruct (rmatch r c Some) as [e|] eqn:E; [|done].
  intros [= <-]. apply rmatch_sound in E as (w & c' & Hw & Hr & [= <-]).
  rewrite Hr, str_length_app.
  replace (String.length w + String.length (rest c') - String.length (rest c'))
    with (String.length w) by lia.
  rewrite str_take_app. by exists (rest c').
Qed.

(** Every string of [re.findall] is a word of the pattern and a part of
    the subject. *)
Lemma findall_from_sound r s :
  ∀ before skip w,
    w ∈ findall_from r before s skip →
    lang r w ∧ ∃ pre post, s = pre +:+ w +:+ post.
Proof.
  induction s as [|a s IH]; intros before skip w; cbn [findall_from].
  - destruct skip; [|by intros ?%elem_of_nil].
    destruct (match_at r _) as [n|] eqn:E; [|by intros ?%elem_of_nil].
    intros ->%list_elem_of_singleton.
    apply match_at_sound in E as (post & _ & Hw). simpl in Hw.
    destruct n; simpl in Hw; (split; [done|by exists "", ""]).
  - assert (Hlater : ∀ b k, w ∈ findall_from r b s k →
              lang r w ∧ ∃ pre post, String a s = pre +:+ w +:+ post).
    { intros b k Hin. destruct (IH _ _ _ Hin) as (Hw & pre & post & ->).
      split; [done|]. by exists (String a pre), post. }
    destruct skip as [|skip]; [|by apply Hlater].
    destruct (match_at r _) as [n|] eqn:E; [|by apply Hlater].
    intros [->|Hin]%elem_of_cons; [|by eapply Hlater].
    apply match_at_sound in E as (post & Hr & Hw). simpl in *.
    split; [done|]. by exists "", post.
Qed.

Lemma all_chars_app p a b :
  all_chars p (a +:+ b) = all_chars p a && all_chars p b.
Proof.
  induction a as [|x a IH]; [done|].
  rewrite append_cons. simpl. by rewrite IH, andb_assoc.
Qed.

Lemma all_chars_impl (p q : ascii → bool) s :
  (∀ c, p c = true → q c = true) →
  all_chars p s = true → all_chars q s = true.
Proof.
  intros Hpq. induction s as [|c s IH]; [done|]. simpl.
  intros [Hc Hs]%andb_true_iff. by rewrite (Hpq c Hc), IH.
Qed.

Lemma lang_star_chars (q : ascii → bool) r w :
  (∀ v, lang r v → all_chars q v = true) →
  lang (RStar r) w → all_chars q w = true.
Proof.
  intros Hr H. remember (RStar r) as rs eqn:E.
  induction H as [| | | |r'|r' w1 w2 H1 _ H2 IH|]; try done.
  injection E as ->. rewrite all_chars_app, (Hr _ H1), IH; done.
Qed.

Lemma lang_class_inv p w :
  lang (RClass p) w → ∃ a, w = String a "" ∧ p a = true.
Proof. inversion 1; subst. eauto. Qed.

Lemma lang_capitalized_word w :
  lang capitalized_word w →
  ∃ a t, w = String a t ∧ is_upper a = true ∧ t ≠ ""
         ∧ all_chars name_char t = true.
Proof.
  unfold capitalized_word. inversion 1 as [| | |? ? w1 w2 H1 H2| | |]; subst.
  apply lang_class_inv in H1 as (a & -> & Ha).
  inversion H2 as [| | | | | |? v1 v2 Hv1 Hv2]; subst.
  apply lang_class_inv in Hv1 as (b & -> & Hb).
  exists a, (String b v2). rewrite !append_cons, !append_nil_l.
  split; [done|]. split; [done|]. split; [done|]. simpl. rewrite Hb. simpl.
  apply (lang_star_chars name_char (RClass name_char)); [|done].
  intros v (c & -> & Hc)%lang_class_inv. simpl. by rewrite Hc.
Qed.

Lemma name_char_or_space c : name_char c = true → name_or_space c = true.
Proof. unfold name_or_space. by intros ->. Qed.

Lemma lang_location_pattern w : lang location_pattern w → capitalized w.
Proof.
  unfold location_pattern.
  inversion 1 as [| | |? ? w0 w1 H0 H1| | |]; subst.
  inversion H0; subst.
  inversion H1 as [| | |? ? w2 w3 H2 H3| | |]; subst.
  inversion H3; subst.
  inversion H2 as [| | |? ? w4 w5 H4 H5| | |]; subst.
  apply lang_capitalized_word in H4 as (a & t & -> & Ha & Ht & Hc).
  rewrite append_nil_l, str_app_nil_r, append_cons.
  exists a, (t +:+ w5). split; [done|]. split; [done|]. split.
  - by destruct t.
  - rewrite all_chars_app.
    rewrite (all_chars_impl _ _ _ name_char_or_space Hc). simpl.
    apply (lang_star_chars name_or_space
             (RSeq (RChar " ") capitalized_word)); [|done].
    intros v Hv. inversion Hv as [| | |? ? v1 v2 Hv1 Hv2| | |]; subst.
    inversion Hv1; subst.
    apply lang_capitalized_word in Hv2 as (b & u & -> & Hb & _ & Hu).
    rewrite !append_cons, append_nil_l. simpl.
    rewrite (all_chars_impl _ _ _ name_char_or_space Hu).
    unfold name_or_space, name_char. by rewrite Hb.
Qed.

Lemma contains_upper sub a t s :
  sub = String a t → is_upper a = true →
  contains sub s = true →
  all_chars (fun c => negb (is_upper c)) s = false.
Proof.
  intros -> Ha (pre & post & ->)%contains_spec.
  rewrite all_chars_app, append_cons. simpl. rewrite Ha. simpl.
  apply andb_false_r.
Qed.

Lemma extract_locations_shape context loc :
  loc ∈ extract_locations context →
  loc = "Western Australia"
  ∨ ((∃ pre post, context = pre +:+ loc +:+ post) ∧ capitalized loc).
Proof.
  unfold extract_locations.
  assert (Hfound : ∀ l,
            l ∈ filter (fun loc => (loc ∉ stop_words)
                                   ∧ (2 < String.length loc)%nat)
                       (findall location_pattern context) →
            (∃ pre post, context = pre +:+ l +:+ post) ∧ capitalized l).
  { intros l [_ Hin]%list_elem_of_filter.
    apply findall_from_sound in Hin as [Hw Hsub].
    split; [done|by apply lang_location_pattern]. }
  destruct (contains "WA" context && _).
  - intros [Hin|Hin]%elem_of_app; [right; by apply Hfound|].
    left. by apply list_elem_of_singleton in Hin.
  - intros Hin. right. by apply Hfound.
Qed.

Lemma extract_locations_no_capital context :
  all_chars (fun c => negb (is_upper c)) context = true →
  extract_locations context = [].
Proof.
  intros Hlow.
  assert (HWA : contains "WA" context = false).
  { destruct (contains "WA" context) eqn:E; [|done].
    by rewrite (contains_upper "WA" "W" "A" context eq_refl eq_refl E) in Hlow. }
  destruct (extract_locations context) as [|loc more] eqn:E; [done|].
  assert (Hin : loc ∈ extract_locations context)
    by (rewrite E; apply elem_of_cons; by left).
  apply extract_locations_shape in Hin as [->|[Hsub Hcap]].
  - revert E. unfold extract_locations. rewrite HWA. simpl. intros E.
    assert (Hin : "Western Australia"
                  ∈ filter (fun loc => (loc ∉ stop_words)
                                       ∧ (2 < String.length loc)%nat)
                           (findall location_pattern context))
      by (rewrite E; apply elem_of_cons; by left).
    apply list_elem_of_filter in Hin as [_ Hin].
    apply findall_from_sound in Hin as [_ Hsub].
    apply contains_spec in Hsub.
    by rewrite (contains_upper _ "W" "estern Australia" context
                  eq_refl eq_refl Hsub) in Hlow.
  - destruct Hcap as (a & t & -> & Ha & _).
    apply contains_spec in Hsub.
    by rewrite (contains_upper _ a t context eq_refl Ha Hsub) in Hlow.
Qed.

End RegexFacts.

(** X13: every candidate that the extraction returns is either the added
    "Western Australia" or a part of the sentence that begins with a
    capital letter, goes on with letters, apostrophes, hyphens and spaces
    only, and has more than two characters. *)
Theorem extracted_candidates_shape (list_of_set : gset string → list string)
    (context loc : string) :
  (∀ X, list_of_set X ≡ₚ elements X) →
  loc ∈ simulate_llm_location_extraction list_of_set context →
  loc = "Western Australia"
  ∨ ((∃ pre post, context = pre +:+ loc +:+ post)
     ∧ capitalized loc ∧ 2 < String.length loc).
Proof.
  intros Hperm Hin. apply (elem_of_extraction _ Hperm) in Hin.
  pose proof (extract_locations_kept _ _ Hin) as [_ Hlen].
  apply extract_locations_shape in Hin as [->|[Hsub Hcap]]; auto.
Qed.

Lemma extracted_candidates_shape_witness :
  "Perth" = "Western Australia"
  ∨ ((∃ pre post, "Drilling in WA near Perth" = pre +:+ "Perth" +:+ post)
     ∧ capitalized "Perth" ∧ 2 < String.length "Perth").
Proof.
  apply (extracted_candidates_shape elements "Drilling in WA near Perth");
    [done|].
  apply elem_of_extraction; [done|]. vm_compute.
  apply elem_of_cons. right. apply elem_of_cons. by left.
Defined.

(** X14: a sentence without a capital letter has no candidate: the
    extraction returns the empty list, and the pipeline passes over every
    such record without a geocoding call and without writing. *)
Theorem no_capital_no_candidate (list_of_set : gset string → list string)
    (geocode : string → nat → result (option (list Location)))
    (json_dumps : FinalRecord → string) (records : list EntityMention) :
  (∀ X, list_of_set X ≡ₚ elements X) →
  Forall (fun record =>
            all_chars (fun c => negb (is_upper c)) (context_sentence record)
            = true) records →
  Forall (fun record =>
            simulate_llm_location_extraction list_of_set
              (context_sentence record) = []) records
  ∧ ∀ fs, run_geolocation_pipeline list_of_set geocode json_dumps
            (Some records) fs = (Ok (), None).
Proof.
  intros Hperm Hlow.
  assert (Hnone : Forall (fun record =>
            simulate_llm_location_extraction list_of_set
              (context_sentence record) = []) records).
  { eapply Forall_impl; [exact Hlow|]. intros record H. simpl in H.
    unfold simulate_llm_location_extraction.
    rewrite (extract_locations_no_capital _ H). simpl.
    apply Permutation_nil_r. rewrite Hperm. by rewrite elements_empty. }
  split; [exact Hnone|]. intros fs. simpl. clear Hlow.
  induction Hnone as [|record records H _ IH]; [done|].
  cbn [process_records]. by rewrite H.
Qed.

Lemma no_capital_no_candidate_witness :
  run_geolocation_pipeline elements demo_geocode (fun _ => "")
    (Some [mkMention "report.pdf" 1 "acme" 0.5%Q
             "the drilling went on for weeks." None])
    (Some "stale")
  = (Ok (), None).
Proof.
  apply (no_capital_no_candidate elements demo_geocode (fun _ => "")); [done|].
  by repeat constructor.
Defined.

(** ** The results of the disambiguation *)

Section ScorerFacts.

Variable context : string.

Lemma high_score_needs_western_australia cand :
  (0.5 < score_candidate context cand)%Q →
  contains "western australia" (lower (name cand)) = true
  ∧ (contains "western australia" (lower context) = true
     ∨ contains "wa" context = true).
Proof.
  unfold score_candidate. cbv zeta.
  destruct (contains "western australia" (lower (name cand))) eqn:Hn;
    destruct (contains "western australia" (lower context)) eqn:Hw;
    destruct (contains "wa" context) eqn:Hc;
    destruct (contains "australia" (lower context)
              && contains "australia" (lower (name cand)));
    simpl; intros H; auto; exfalso; revert H; by vm_compute.
Qed.

Lemma best_so_far_elem seen i best :
  best_so_far context seen i best → best ∈ seen.
Proof. intros (Hi & _). apply list_elem_of_lookup. eauto. Qed.

End ScorerFacts.

(** X15: the confidence of a result is one of four values: 0.0 exactly
    when there is no candidate, 0.25 for the fallback, and 0.8 or 1.0 for
    a contextual match; it always lies between 0 and 1. *)
Theorem confidence_values (context : string) (candidates : list Candidate) :
  let r := simulate_llm_disambiguation context candidates in
  (candidates = [] ↔ geolocation_confidence r == 0)%Q
  ∧ (geolocation_confidence r == 0 ∨ geolocation_confidence r == 0.25
     ∨ geolocation_confidence r == 0.8 ∨ geolocation_confidence r == 1)%Q
  ∧ (0 <= geolocation_confidence r <= 1)%Q.
Proof.
  simpl.
  assert (Hcases : (candidates = [] ∧ geolocation_confidence
                      (simulate_llm_disambiguation context candidates) == 0
                    ∨ candidates ≠ []
                      ∧ (geolocation_confidence
                           (simulate_llm_disambiguation context candidates)
                         == 0.25
                         ∨ geolocation_confidence
                             (simulate_llm_disambiguation context candidates)
                           == 0.8
                         ∨ geolocation_confidence
                             (simulate_llm_disambiguation context candidates)
                           == 1))%Q).
  { destruct candidates as [|first_cand more]; [left; by split|right].
    split; [done|].
    destruct (scan_best context first_cand more) as (i & best & E & _).
    unfold simulate_llm_disambiguation. rewrite E.
    destruct (Qgt_bool (score_candidate context best) 0.5) eqn:Hgt;
      [|by left].
    right. simpl. apply Qgt_bool_spec in Hgt.
    destruct (score_cases context best) as [Hs|[Hs|[Hs|Hs]]];
      rewrite Hs in *; try (exfalso; revert Hgt; by vm_compute).
    - by left.
    - by right. }
  split; [|split].
  - destruct Hcases as [[-> H]|[Hne H]]; [by split|].
    split; [done|]. intros H0. exfalso.
    destruct H as [H|[H|H]]; rewrite H in H0; revert H0; by vm_compute.
  - destruct Hcases as [[_ H]|[_ [H|[H|H]]]]; auto.
  - destruct Hcases as [[_ H]|[_ [H|[H|H]]]]; rewrite H; by vm_compute.
Qed.

(** X16: with at least one candidate, the location of the result is the
    name of one of the candidates and the coordinates are the latitude
    and longitude of that same candidate. *)
Theorem chosen_is_a_candidate (context : string)
    (candidates : list Candidate) :
  candidates ≠ [] →
  ∃ cand,
    cand ∈ candidates
    ∧ chosen_location (simulate_llm_disambiguation context candidates)
      = Some (name cand)
    ∧ coordinates (simulate_llm_disambiguation context candidates)
      = Some (latitude cand, longitude cand).
Proof.
  destruct candidates as [|first_cand more]; [done|]. intros _.
  destruct (scan_best context first_cand more) as (i & best & E & Hbest).
  unfold simulate_llm_disambiguation. rewrite E.
  destruct (Qgt_bool (score_candidate context best) 0.5).
  - exists best. split; [by eapply best_so_far_elem|done].
  - exists first_cand. split; [apply elem_of_cons; by left|done].
Qed.

Lemma chosen_is_a_candidate_witness :
  ∃ cand,
    cand ∈ perth_candidates
    ∧ chosen_location (simulate_llm_disambiguation wa_context perth_candidates)
      = Some (name cand)
    ∧ coordinates (simulate_llm_disambiguation wa_context perth_candidates)
      = Some (latitude cand, longitude cand).
Proof. by apply (chosen_is_a_candidate wa_context perth_candidates). Defined.

(** X17: a result that is not the fallback (its confidence is above 0.25)
    names a candidate whose lowered name contains "western australia",
    for a context that contains "western australia" in any case or a
    lower-case "wa": the 0.5 for "australia" alone never suffices. *)
Theorem match_needs_western_australia (context : string)
    (candidates : list Candidate) :
  (0.25 < geolocation_confidence
            (simulate_llm_disambiguation context candidates))%Q →
  ∃ cand,
    cand ∈ candidates
    ∧ chosen_location (simulate_llm_disambiguation context candidates)
      = Some (name cand)
    ∧ contains "western australia" (lower (name cand)) = true
    ∧ (contains "western australia" (lower context) = true
       ∨ contains "wa" context = true).
Proof.
  destruct candidates as [|first_cand more];
    [intros H; exfalso; revert H; by vm_compute|].
  destruct (scan_best context first_cand more) as (i & best & E & Hbest).
  unfold simulate_llm_disambiguation. rewrite E.
  destruct (Qgt_bool (score_candidate context best) 0.5) eqn:Hgt.
  - intros _. apply Qgt_bool_spec in Hgt. exists best.
    split; [by eapply best_so_far_elem|]. split; [done|].
    by apply high_score_needs_western_australia.
  - intros H. exfalso. revert H. by vm_compute.
Qed.

Lemma match_needs_western_australia_witness :
  ∃ cand,
    cand ∈ wa_candidates
    ∧ chosen_location
        (simulate_llm_disambiguation "A gold project in Western Australia"
           wa_candidates)
      = Some (name cand)
    ∧ contains "western australia" (lower (name cand)) = true
    ∧ (contains "western australia"
         (lower "A gold project in Western Australia") = true
       ∨ contains "wa" "A gold project in Western Australia" = true).
Proof.
  apply (match_needs_western_australia "A gold project in Western Australia"
           wa_candidates).
  by vm_compute.
Defined.

(** ** Pooling the candidates of a record *)

Section Pooling.

Variable list_of_set : gset string → list string.
Variable geocode : string → nat → result (option (list Location)).
Variable json_dumps : FinalRecord → string.

Lemma all_candidates_of_bound location_names :
  (∀ query n locs, geocode query n = Ok (Some locs) → length locs ≤ n) →
  ∃ cands,
    all_candidates_of geocode location_names = Ok cands
    ∧ length cands ≤ 3 * length location_names.
Proof.
  intros Hlimit. induction location_names as [|n ns (more & E & L)];
    [by exists []|].
  assert (∃ cs, geocode_location geocode n = Ok cs ∧ length cs ≤ 3)
    as (cs & Ec & Lc).
  { unfold geocode_location.
    destruct (geocode n 3) as [[[|loc locs]|]|e] eqn:Eg; simpl.
    - exists []. split; [done|simpl; lia].
    - eexists. split; [reflexivity|]. apply Hlimit in Eg.
      simpl in *. by rewrite length_fmap.
    - exists []. split; [done|simpl; lia].
    - exists []. split; [by destruct e|simpl; lia]. }
  cbn [all_candidates_of]. rewrite Ec. simpl. rewrite E. simpl.
  eexists. split; [reflexivity|]. rewrite length_app. simpl. lia.
Qed.

Lemma all_candidates_of_failing location_names :
  (∀ query n, raises (geocode query n)) →
  all_candidates_of geocode location_names = Ok [].
Proof.
  intros Hfail. induction location_names as [|n ns IH]; [done|].
  cbn [all_candidates_of]. unfold geocode_location.
  specialize (Hfail n 3). destruct (geocode n 3) as [?|e]; [done|].
  simpl. rewrite IH. by destruct e.
Qed.

End Pooling.

(** X18: the candidates pooled for a record never make the pipeline
    raise, and with a backend that honours its limit there are at most
    three of them per location name. *)
Theorem pooled_candidates_bound
    (geocode : string → nat → result (option (list Location)))
    (location_names : list string) :
  (∀ query n locs, geocode query n = Ok (Some locs) → length locs ≤ n) →
  ∃ cands,
    all_candidates_of geocode location_names = Ok cands
    ∧ length cands ≤ 3 * length location_names.
Proof. apply all_candidates_of_bound. Qed.

Lemma pooled_candidates_bound_witness :
  ∃ cands,
    all_candidates_of demo_geocode ["Perth"; "Atlantis"; "Kalgoorlie"]
    = Ok cands
    ∧ length cands ≤ 3 * 3.
Proof.
  exact (pooled_candidates_bound demo_geocode
           ["Perth"; "Atlantis"; "Kalgoorlie"] demo_geocode_limit).
Defined.

(** X19: when the geocoding backend fails on every query, the pipeline
    still runs to its end: it returns normally, no record is written, and
    an output file of an earlier run is gone. *)
Theorem failing_backend_writes_nothing
    (list_of_set : gset string → list string)
    (geocode : string → nat → result (option (list Location)))
    (json_dumps : FinalRecord → string) (records : list EntityMention)
    (fs : option string) :
  (∀ query n, raises (geocode query n)) →
  run_geolocation_pipeline list_of_set geocode json_dumps (Some records) fs
  = (Ok (), None).
Proof.
  intros Hfail. simpl. induction records as [|record records IH]; [done|].
  cbn [process_records].
  destruct (simulate_llm_location_extraction list_of_set _) as [|n ns];
    [exact IH|].
  by rewrite (all_candidates_of_failing geocode (n :: ns) Hfail).
Qed.

Lemma failing_backend_writes_nothing_witness :
  run_geolocation_pipeline elements
    (fun _ _ => Raise (GeocoderUnavailable "down")) (fun _ => "")
    (Some [perth_mention]) (Some "stale")
  = (Ok (), None).
Proof.
  by apply (failing_backend_writes_nothing elements
              (fun _ _ => Raise (GeocoderUnavailable "down"))).
Defined.

(** ** Text extraction and the NER output *)

Example ex_split_sentences :
  split_sentences "Hello world. This is it!  Next one? yes"
  = ["Hello world."; "This is it!"; "Next one?"; "yes"]
  ∧ split_sentences "a. " = ["a."; ""]
  ∧ split_sentences " a.b. c" = [" a.b."; "c"]
  ∧ split_sentences "" = [""]
  ∧ split_sentences "   lead. trail.   " = ["   lead."; "trail."; ""]
  ∧ split_sentences "a . b" = ["a ."; "b"]
  ∧ split_sentences "a!?  b" = ["a!?"; "b"]
  ∧ split_sentences " . a" = [" ."; "a"]
  ∧ split_sentences (replace_newlines
      ("x." +:+ String (ascii_of_nat 10) (String (ascii_of_nat 10) "y")))
    = ["x."; "y"].
Proof. repeat split. Qed.

Example ex_strip :
  strip "  Acme Gold. " = "Acme Gold."
  ∧ rstrip dot_or_comma (strip "  Acme Gold. ") = "Acme Gold"
  ∧ rstrip dot_or_comma (strip "Acme.,.") = "Acme"
  ∧ rstrip dot_or_comma (strip " .,") = ""
  ∧ rstrip dot_or_comma (strip "Acme .") = "Acme "
  ∧ rstrip dot_or_comma (strip ".Acme") = ".Acme".
Proof. repeat split. Qed.

Example ex_basename :
  basename "/a/b/c.pdf" = "c.pdf" ∧ basename "c.pdf" = "c.pdf"
  ∧ basename "/a/b/" = "" ∧ basename "a//b" = "b".
Proof. repeat split. Qed.

Section ExtractorFacts.

Variable path_exists : string → bool.
Variable fitz_open : string → result (list (result string)).
Variable plumber_open : string → result (list (result (option string))).

Lemma dict_set_fresh k v d :
  Forall (fun key => key < k) d.*1 → dict_set k v d = d ++ [(k, v)].
Proof.
  induction d as [|[k' v'] d IH]; [done|]. rewrite fmap_cons.
  intros [Hk Hd]%Forall_cons. simpl in *.
  rewrite decide_False by lia. by rewrite IH.
Qed.

Lemma increasing_from_snoc lo keys k :
  increasing_from lo keys → Forall (fun key => key < k) keys → lo ≤ k →
  increasing_from lo (keys ++ [k]).
Proof.
  revert lo. induction keys as [|x keys IH]; intros lo; simpl; [done|].
  intros [Hx Hinc] [Hxk Hall]%Forall_cons Hlo. split; [done|].
  apply IH; [done|done|lia].
Qed.

Lemma pages_so_far_set i v d :
  pages_so_far i d → pages_so_far (S i) (dict_set (i + 1) v d).
Proof.
  intros [Hinc Hall]. rewrite dict_set_fresh
    by (eapply Forall_impl; [exact Hall|]; simpl; lia).
  unfold pages_so_far. rewrite fmap_app. simpl. split.
  - apply increasing_from_snoc; [done| |lia].
    eapply Forall_impl; [exact Hall|]. simpl. lia.
  - apply Forall_app. split.
    + eapply Forall_impl; [exact Hall|]. simpl. lia.
    + apply Forall_singleton. lia.
Qed.

Lemma pages_so_far_next i d : pages_so_far i d → pages_so_far (S i) d.
Proof.
  intros [Hinc Hall]. split; [done|].
  eapply Forall_impl; [exact Hall|]. simpl. lia.
Qed.

Lemma fitz_loop_inv pages :
  ∀ i d d',
    pages_so_far i d → fitz_loop pages i d = Ok d' →
    pages_so_far (i + length pages) d'.
Proof.
  induction pages as [|page pages IH]; intros i d d' Hd; cbn [fitz_loop].
  - intros [= <-]. by rewrite Nat.add_0_r.
  - destruct page as [text|]; [|done]. simpl. intros H.
    apply IH in H; [|by apply pages_so_far_set].
    by replace (i + S (length pages)) with (S i + length pages) by lia.
Qed.

Lemma plumber_loop_inv pages :
  ∀ i d,
    pages_so_far i d → Forall (fun kv => kv.2 ≠ "") d →
    (∃ j, pages_so_far j (plumber_loop pages i d))
    ∧ Forall (fun kv => kv.2 ≠ "") (plumber_loop pages i d).
Proof.
  induction pages as [|page pages IH]; intros i d Hd Hne; cbn [plumber_loop].
  - split; [by exists i|done].
  - destruct page as [[text|]|]; [| |split; [by exists i|done]].
    + destruct (String.eqb text "") eqn:E.
      * apply IH; [by apply pages_so_far_next|done].
      * apply String.eqb_neq in E.
        apply IH; [by apply pages_so_far_set|].
        destruct Hd as [_ Hall].
        rewrite dict_set_fresh
          by (eapply Forall_impl; [exact Hall|]; simpl; lia).
        apply Forall_app. split; [done|]. by repeat constructor.
    + apply IH; [by apply pages_so_far_next|done].
Qed.

Lemma fitz_loop_readable texts :
  ∀ i d,
    pages_so_far i d →
    fitz_loop (readable texts) i d
    = Ok (d ++ imap (fun j t => (S (i + j), t)) texts).
Proof.
  induction texts as [|t texts IH]; intros i d Hd; cbn [readable fmap].
  - simpl. by rewrite app_nil_r.
  - unfold readable in *. rewrite fmap_cons. cbn [fitz_loop]. simpl.
    rewrite IH by (by apply pages_so_far_set).
    destruct Hd as [_ Hall].
    rewrite dict_set_fresh
      by (eapply Forall_impl; [exact Hall|]; simpl; lia).
    rewrite <- app_assoc. do 2 f_equal. simpl. f_equal.
    + f_equal. lia.
    + apply imap_ext. intros j x _. simpl. f_equal. lia.
Qed.

Lemma any_text_nonempty d :
  Forall (fun kv => kv.2 ≠ "") d → d ≠ [] → any_text d = true.
Proof.
  destruct d as [|[k v] d]; [done|]. intros [Hv _]%Forall_cons _.
  unfold any_text. simpl in *. apply String.eqb_neq in Hv. by rewrite Hv.
Qed.

Lemma extract_invariants pdf_path :
  path_exists pdf_path = true →
  ∃ page_texts,
    extract_text_from_pdf path_exists fitz_open plumber_open pdf_path
    = Ok page_texts
    ∧ increasing_from 1 page_texts.*1
    ∧ (page_texts ≠ [] → any_text page_texts = true).
Proof.
  intros Hex. unfold extract_text_from_pdf. rewrite Hex. simpl.
  assert (H0 : pages_so_far 0 []) by (split; constructor).
  unfold primary.
  destruct (fitz_open pdf_path ≫= _) as [d|] eqn:E.
  - destruct (any_text d) eqn:Ha.
    + exists d. split; [done|]. split; [|done].
      destruct (fitz_open pdf_path) as [pages|]; [|done]. simpl in E.
      by apply (fitz_loop_inv pages 0 [] d H0) in E as [? _].
    + exists (secondary plumber_open pdf_path). split; [done|].
      unfold secondary. destruct (plumber_open pdf_path) as [pages|];
        [|by split].
      destruct (plumber_loop_inv pages 0 [] H0 (Forall_nil_2 _))
        as [[j [Hinc _]] Hne].
      split; [done|]. by apply any_text_nonempty.
  - exists (secondary plumber_open pdf_path). split; [done|].
    unfold secondary. destruct (plumber_open pdf_path) as [pages|];
      [|by split].
    destruct (plumber_loop_inv pages 0 [] H0 (Forall_nil_2 _))
      as [[j [Hinc _]] Hne].
    split; [done|]. by apply any_text_nonempty.
Qed.

End ExtractorFacts.

(** X20: for an existing file, whatever the two PDF libraries do
    (failures included), [extract_text_from_pdf] returns a dict whose page
    numbers start at 1 or later and go up strictly, and which, when it is
    not empty, holds at least one non-empty text; for a missing file it
    raises [FileNotFoundError] before any library is called. *)
Theorem extracted_pages_invariants (path_exists : string → bool)
    (fitz_open : string → result (list (result string)))
    (plumber_open : string → result (list (result (option string))))
    (pdf_path : string) :
  (path_exists pdf_path = false →
   extract_text_from_pdf path_exists fitz_open plumber_open pdf_path
   = Raise FileNotFoundError)
  ∧ (path_exists pdf_path = true →
     ∃ page_texts,
       extract_text_from_pdf path_exists fitz_open plumber_open pdf_path
       = Ok page_texts
       ∧ increasing_from 1 page_texts.*1
       ∧ (page_texts ≠ [] → any_text page_texts = true)).
Proof.
  split.
  - intros H. unfold extract_text_from_pdf. by rewrite H.
  - apply extract_invariants.
Qed.

Lemma extracted_pages_invariants_witness :
  ∃ page_texts,
    extract_text_from_pdf (fun _ => true)
      (fun _ => Ok [Ok ""; Raise (OtherException "broken page")])
      (fun _ => Ok [Ok None; Ok (Some "Acme Gold Project."); Ok (Some "")])
      "report.pdf"
    = Ok page_texts
    ∧ increasing_from 1 page_texts.*1
    ∧ (page_texts ≠ [] → any_text page_texts = true).
Proof.
  by apply (extracted_pages_invariants (fun _ => true)
              (fun _ => Ok [Ok ""; Raise (OtherException "broken page")])
              (fun _ => Ok [Ok None; Ok (Some "Acme Gold Project.");
                            Ok (Some "")])
              "report.pdf").
Defined.

(** X21: when the first library reads every page of an existing file and
    at least one page has text, the result is the dict of all the pages,
    numbered from 1, empty pages included, and the second library is not
    consulted: its behaviour does not matter. *)
Theorem primary_method_returns_all_pages (path_exists : string → bool)
    (fitz_open : string → result (list (result string)))
    (plumber_open : string → result (list (result (option string))))
    (pdf_path : string) (texts : list string) :
  path_exists pdf_path = true →
  fitz_open pdf_path = Ok (readable texts) →
  (∃ t, t ∈ texts ∧ t ≠ "") →
  extract_text_from_pdf path_exists fitz_open plumber_open pdf_path
  = Ok (numbered texts).
Proof.
  intros Hex Hopen (t & Hin & Hne). unfold extract_text_from_pdf, primary.
  rewrite Hex, Hopen. simpl.
  rewrite fitz_loop_readable by (split; constructor). simpl.
  change (imap (fun j t => (S j, t)) texts) with (numbered texts).
  assert (any_text (numbered texts) = true) as ->; [|done].
  unfold any_text. apply existsb_exists.
  apply list_elem_of_lookup in Hin as [i Hi].
  exists (S i, t). split.
  - apply list_elem_of_In, list_elem_of_lookup. exists i.
    unfold numbered. by rewrite list_lookup_imap, Hi.
  - simpl. apply String.eqb_neq in Hne. by rewrite Hne.
Qed.

Lemma primary_method_returns_all_pages_witness :
  extract_text_from_pdf (fun _ => true)
    (fun _ => Ok (readable [""; "Acme Gold Project."; ""]))
    (fun _ => Raise (OtherException "not consulted")) "report.pdf"
  = Ok [(1, ""); (2, "Acme Gold Project."); (3, "")].
Proof.
  apply (primary_method_returns_all_pages (fun _ => true)
           (fun _ => Ok (readable [""; "Acme Gold Project."; ""]))
           (fun _ => Raise (OtherException "not consulted")) "report.pdf"
           [""; "Acme Gold Project."; ""]); [done|done|].
  exists "Acme Gold Project.". split; [|done].
  apply elem_of_cons. right. apply elem_of_cons. by left.
Defined.

Section StripFacts.

Lemma lstrip_first p s : holds p (first_char (lstrip p s)) = false.
Proof.
  induction s as [|c s IH]; [done|]. simpl.
  destruct (p c) eqn:E; [done|]. simpl. exact E.
Qed.

Lemma rstrip_cases p s :
  rstrip p s = "" ∨ first_char (rstrip p s) = first_char s.
Proof.
  destruct s as [|c s]; [by left|]. simpl.
  destruct (rstrip p s); [destruct (p c)|]; auto.
Qed.

Lemma rstrip_first p q s :
  holds q (first_char s) = false → holds q (first_char (rstrip p s)) = false.
Proof. destruct (rstrip_cases p s) as [->| ->]; done. Qed.

Lemma rstrip_last p s : holds p (last_char (rstrip p s)) = false.
Proof.
  induction s as [|c s IH]; [done|]. simpl.
  destruct (rstrip p s) as [|b r] eqn:E.
  - destruct (p c) eqn:Hc; [done|]. simpl. exact Hc.
  - exact IH.
Qed.

Lemma strip_first s : holds is_space (first_char (strip s)) = false.
Proof. apply rstrip_first, lstrip_first. Qed.

Lemma strip_last s : holds is_space (last_char (strip s)) = false.
Proof. apply rstrip_last. Qed.

Lemma entity_record_clean pdf_path page_num sentence entity :
  clean_record (entity_record pdf_path page_num sentence entity).
Proof.
  unfold clean_record, entity_record. simpl.
  split; [done|]. split; [apply rstrip_last|].
  split; [apply rstrip_first, strip_first|].
  split; [apply strip_first|apply strip_last].
Qed.

End StripFacts.

Section NerOutputFacts.

Variable extract : string → result (list (nat * string)).
Variable ner_pipeline : string → result (list Entity).
Variable json_dumps : EntityMention → string.

Lemma lines_app records1 records2 fs :
  lines json_dumps (records1 ++ records2) fs
  = lines json_dumps records2 (lines json_dumps records1 fs).
Proof. unfold lines. apply foldl_app. Qed.

(** A step that appends clean records to the file, folded over a list,
    appends clean records. *)
Lemma foldl_appends {A} (step : option string → A → option string) xs :
  (∀ fs x, ∃ records, step fs x = lines json_dumps records fs
                      ∧ Forall clean_record records) →
  ∀ fs, ∃ records, foldl step fs xs = lines json_dumps records fs
                   ∧ Forall clean_record records.
Proof.
  intros Hstep. induction xs as [|x xs IH]; intros fs.
  - by exists [].
  - simpl. destruct (Hstep fs x) as (r1 & -> & H1).
    destruct (IH (lines json_dumps r1 fs)) as (r2 & -> & H2).
    exists (r1 ++ r2). split; [by rewrite lines_app|by apply Forall_app].
Qed.

Lemma process_sentence_appends pdf_path page_num fs sentence :
  ∃ records,
    process_sentence ner_pipeline json_dumps pdf_path page_num fs sentence
    = lines json_dumps records fs
    ∧ Forall clean_record records.
Proof.
  unfold process_sentence. destruct (ner_pipeline sentence) as [entities|];
    [|by exists []].
  unfold write_entities. apply foldl_appends. intros fs' entity.
  destruct (String.eqb (entity_group entity) "PROJECT"); [|by exists []].
  exists [entity_record pdf_path page_num sentence entity].
  split; [done|]. constructor; [apply entity_record_clean|done].
Qed.

Lemma process_page_appends pdf_path fs page :
  ∃ records,
    process_page ner_pipeline json_dumps pdf_path fs page
    = lines json_dumps records fs
    ∧ Forall clean_record records.
Proof.
  destruct page as [page_num text]. unfold process_page.
  destruct (String.eqb (strip text) ""); [by exists []|].
  apply foldl_appends. intros. apply process_sentence_appends.
Qed.

Lemma process_pdfs_appends pdf_files :
  ∀ fs, ∃ records,
    (process_pdfs extract ner_pipeline json_dumps pdf_files fs).2
    = lines json_dumps records fs
    ∧ Forall clean_record records.
Proof.
  induction pdf_files as [|pdf_path more IH]; intros fs; cbn [process_pdfs].
  - by exists [].
  - destruct (extract pdf_path) as [page_texts|]; [|by exists []].
    destruct (foldl_appends (process_page ner_pipeline json_dumps pdf_path)
                page_texts (fun fs page => process_page_appends pdf_path fs page)
                fs) as (r1 & -> & H1).
    destruct (IH (lines json_dumps r1 fs)) as (r2 & -> & H2).
    exists (r1 ++ r2). split; [by rewrite lines_app|by apply Forall_app].
Qed.

Lemma process_sentence_failing pdf_path page_num fs sentence :
  (∀ s, raises (ner_pipeline s)) →
  process_sentence ner_pipeline json_dumps pdf_path page_num fs sentence = fs.
Proof.
  intros Hfail. unfold process_sentence. specialize (Hfail sentence).
  by destruct (ner_pipeline sentence).
Qed.

Lemma foldl_fixed {A} (step : option string → A → option string) xs fs :
  (∀ fs x, step fs x = fs) → foldl step fs xs = fs.
Proof.
  intros Hstep. induction xs as [|x xs IH]; [done|]. simpl.
  by rewrite Hstep.
Qed.

Lemma process_pdfs_failing pdf_files :
  (∀ s, raises (ner_pipeline s)) →
  Forall (fun pdf_path => ¬ raises (extract pdf_path)) pdf_files →
  ∀ fs, process_pdfs extract ner_pipeline json_dumps pdf_files fs
        = (Ok (), fs).
Proof.
  intros Hfail. induction 1 as [|pdf_path more Hok _ IH]; intros fs;
    cbn [process_pdfs]; [done|].
  destruct (extract pdf_path) as [page_texts|]; [|by destruct Hok].
  rewrite foldl_fixed; [apply IH|].
  intros fs' [page_num text]. unfold process_page.
  destruct (String.eqb (strip text) ""); [done|].
  apply foldl_fixed. intros. by apply process_sentence_failing.
Qed.

Lemma lines_text records :
  ∀ fs, lines json_dumps records fs
        = match records with
          | [] => fs
          | _ :: _ =>
              Some (default "" fs +:+ text_of_lines json_dumps records)
          end.
Proof.
  induction records as [|r records IH]; intros fs; [done|].
  unfold lines in *. cbn [foldl]. rewrite IH. unfold append_line.
  destruct records as [|r' records'].
  - simpl. by rewrite str_app_nil_r, str_app_assoc.
  - change (text_of_lines json_dumps (r :: r' :: records'))
      with ((json_dumps r +:+ newline)
            +:+ text_of_lines json_dumps (r' :: records')).
    simpl. by rewrite !str_app_assoc.
Qed.

End NerOutputFacts.

Section SentenceFacts.

Lemma last_char_snoc s c : last_char (s +:+ String c "") = Some c.
Proof.
  induction s as [|a s IH]; [done|]. rewrite append_cons.
  cbn [last_char]. rewrite IH. by destruct s.
Qed.

Lemma replace_newlines_clean s :
  all_chars not_newline (replace_newlines s) = true.
Proof.
  induction s as [|c s IH]; [done|]. simpl. rewrite IH.
  unfold not_newline. by destruct (Ascii.eqb c (ascii_of_nat 10)) eqn:E;
    [|rewrite E].
Qed.

Lemma split_sentences_from_chars p s :
  ∀ before cur in_gap,
    all_chars p s = true → all_chars p cur = true →
    Forall (fun piece => all_chars p piece = true)
           (split_sentences_from s before cur in_gap).
Proof.
  induction s as [|c s IH]; intros before cur in_gap Hs Hcur;
    cbn [split_sentences_from].
  - by repeat constructor.
  - simpl in Hs. apply andb_true_iff in Hs as [Hc Hs].
    destruct (is_space c && (in_gap || ends_sentence before)).
    + destruct in_gap; [by apply IH|]. constructor; [done|by apply IH].
    + apply IH; [done|]. by apply all_chars_snoc.
Qed.

Lemma split_sentences_from_spec s :
  ∀ before cur in_gap,
    reading before cur in_gap →
    ∃ tail more,
      split_sentences_from s before cur in_gap = (cur +:+ tail) :: more
      ∧ Forall ends_with_stop (but_last ((cur +:+ tail) :: more))
      ∧ Forall begins_tight more
      ∧ (in_gap = true → begins_tight (cur +:+ tail)).
Proof.
  induction s as [|c s IH]; intros before cur in_gap Hread;
    cbn [split_sentences_from].
  - exists "", []. rewrite str_app_nil_r. split; [done|].
    split; [constructor|]. split; [constructor|].
    intros ->. unfold reading in Hread. by subst.
  - destruct (is_space c && (in_gap || ends_sentence before)) eqn:Hsep.
    + destruct in_gap.
      * destruct (IH (Some c) cur true Hread) as (tail & more & -> & H).
        by exists tail, more.
      * destruct (IH (Some c) "" true eq_refl)
          as (tail & more & -> & Hends & Htight & Hfirst).
        exists "", (("" +:+ tail) :: more). rewrite str_app_nil_r.
        split; [done|]. split.
        -- cbn [but_last]. constructor; [|exact Hends].
           unfold reading in Hread. unfold ends_with_stop. rewrite Hread.
           apply andb_true_iff in Hsep as [_ Hsep]. exact Hsep.
        -- split; [|done]. constructor; [by apply Hfirst|done].
    + destruct (IH (Some c) (cur +:+ String c "") false
                  (last_char_snoc cur c))
        as (tail & more & -> & Hends & Htight & _).
      exists (String c tail), more.
      assert ((cur +:+ String c "") +:+ tail = cur +:+ String c tail) as Heq
        by (by rewrite str_app_assoc).
      rewrite Heq in *. split; [done|]. split; [done|]. split; [done|].
      intros ->. unfold reading in Hread. subst cur.
      rewrite append_nil_l. unfold begins_tight. simpl.
      by destruct (is_space c).
Qed.

End SentenceFacts.

(** X22: whatever the extractor and the model return, the file that
    [generate_ner_output] leaves is absent when no record was written and
    otherwise is made of whole lines, one JSON text and one newline per
    record; every record has no coordinates, a project name that neither
    ends with a dot or a comma nor begins with whitespace, and a context
    sentence without whitespace at either end. *)
Theorem ner_output_is_clean_lines
    (extract : string → result (list (nat * string)))
    (ner_pipeline : string → result (list Entity))
    (json_dumps : EntityMention → string)
    (pdf_files : list string) (fs : option string) :
  ∃ records,
    (generate_ner_output extract ner_pipeline json_dumps pdf_files fs).2
    = match records with
      | [] => None
      | _ :: _ => Some (text_of_lines json_dumps records)
      end
    ∧ Forall clean_record records.
Proof.
  unfold generate_ner_output.
  destruct (process_pdfs_appends extract ner_pipeline json_dumps pdf_files None)
    as (records & -> & Hclean).
  exists records. split; [|done]. rewrite lines_text.
  destruct records; [done|]. by rewrite append_nil_l.
Qed.

(** X23: when the model fails on every sentence and the extractor on no
    file, [generate_ner_output] returns normally and leaves no output
    file, also when one existed before; the geolocation stage, which then
    finds no input, returns without touching its own output file. *)
Theorem failing_inference_leaves_no_file
    (extract : string → result (list (nat * string)))
    (ner_pipeline : string → result (list Entity))
    (json_dumps : EntityMention → string)
    (pdf_files : list string) (fs : option string) :
  (∀ sentence, raises (ner_pipeline sentence)) →
  Forall (fun pdf_path => ¬ raises (extract pdf_path)) pdf_files →
  generate_ner_output extract ner_pipeline json_dumps pdf_files fs
  = (Ok (), None)
  ∧ ∀ list_of_set geocode final_dumps final_fs,
      run_geolocation_pipeline list_of_set geocode final_dumps None final_fs
      = (Ok (), final_fs).
Proof.
  intros Hfail Hok. split; [|done]. unfold generate_ner_output.
  by apply process_pdfs_failing.
Qed.

Lemma failing_inference_leaves_no_file_witness :
  generate_ner_output
    (fun _ => Ok [(1, "The Acme Gold Project lies near Perth. It is big.")])
    (fun _ => Raise (OtherException "out of memory")) (fun _ => "")
    ["a.pdf"; "b.pdf"] (Some "stale")
  = (Ok (), None).
Proof.
  destruct (failing_inference_leaves_no_file
    (fun _ => Ok [(1, "The Acme Gold Project lies near Perth. It is big.")])
    (fun _ => Raise (OtherException "out of memory")) (fun _ => "")
    ["a.pdf"; "b.pdf"] (Some "stale")) as [H _]; [done| |exact H].
  repeat constructor; by intros [].
Defined.

(** X24: the sentences of a page, [re.split] on the text with its
    newlines replaced: there is at least one piece; every piece but the
    last ends with a dot, an exclamation mark or a question mark; no piece
    after the first begins with whitespace; and no piece contains a
    newline. *)
Theorem sentences_of_page (text : string) :
  ∃ first_piece more,
    split_sentences (replace_newlines text) = first_piece :: more
    ∧ Forall ends_with_stop (but_last (first_piece :: more))
    ∧ Forall begins_tight more
    ∧ Forall (fun piece => all_chars not_newline piece = true)
             (first_piece :: more).
Proof.
  unfold split_sentences.
  destruct (split_sentences_from_spec (replace_newlines text) None "" false
              eq_refl) as (tail & more & E & Hends & Htight & _).
  exists ("" +:+ tail), more. split; [done|]. split; [done|].
  split; [done|]. rewrite <- E.
  apply split_sentences_from_chars; [apply replace_newlines_clean|done].
Qed.
